(** * castle1724/upb: the UPB Powerline Interface Module driver

    A shallow embedding of [upb/upb.go] and the properties of its protocol
    engine: packet checksum, message construction, wire encoding, frame
    splitting and the single-request control loop of [serve].

    Conventions.
    - A Go [byte] is a [Z] in [0, 256); arithmetic on bytes wraps modulo 256
      and the wrap-around is written out.
    - A Go [[]byte] message is a [list Z].
    - A Go [string] (and the text read from or written to the serial port)
      is a [string]: a sequence of 8-bit characters.
    - A pointer that may be nil ([*req], [error]) is an [option].
    - Calls of the injected callbacks ([logf], [rx]), writes to the port and
      sends on a response channel are recorded as a list of effects. *)

From Stdlib Require Import ZArith List String Ascii Bool Lia Permutation.
Import ListNotations.
Local Open Scope Z_scope.

(** ** The parts of Go's [encoding/hex] and [fmt] that the driver calls *)

Module Hex.

Definition code (c : ascii) : Z := Z.of_N (N_of_ascii c).

(** [reverseHexTable]: the value of a hexadecimal digit, either case. *)
Definition fromHexChar (c : ascii) : option Z :=
  let n := code c in
  if (48 <=? n) && (n <=? 57) then Some (n - 48)
  else if (97 <=? n) && (n <=? 102) then Some (n - 97 + 10)
  else if (65 <=? n) && (n <=? 70) then Some (n - 65 + 10)
  else None.

Inductive error : Type :=
| InvalidByteError (c : ascii)
| ErrLength.

(** [hex.DecodeString]: the bytes decoded so far and the error, if any.
    An odd-length input reports a bad last character before the length. *)
Fixpoint DecodeString (s : string) : list Z * option error :=
  match s with
  | EmptyString => ([], None)
  | String p EmptyString =>
      match fromHexChar p with
      | None => ([], Some (InvalidByteError p))
      | Some _ => ([], Some ErrLength)
      end
  | String p (String q rest) =>
      match fromHexChar p with
      | None => ([], Some (InvalidByteError p))
      | Some a =>
          match fromHexChar q with
          | None => ([], Some (InvalidByteError q))
          | Some b =>
              let (bs, e) := DecodeString rest in
              (Z.lor (Z.shiftl a 4) b :: bs, e)
          end
      end
  end.

(** The digit tables of [fmt]: [udigits] for the verb X, [ldigits] for x. *)
Definition digit (table : string) (n : Z) : ascii :=
  match String.get (Z.to_nat n) table with
  | Some c => c
  | None => "?"%char
  end.

Definition udigits : string := "0123456789ABCDEF".
Definition ldigits : string := "0123456789abcdef".

Definition hex2 (table : string) (b : Z) : string :=
  String (digit table (Z.shiftr b 4)) (String (digit table (Z.land b 15)) EmptyString).

Fixpoint hexBytes (table : string) (bs : list Z) : string :=
  match bs with
  | [] => EmptyString
  | b :: bs' => hex2 table b ++ hexBytes table bs'
  end.

(** [hex.EncodeToString]. *)
Definition EncodeToString (bs : list Z) : string := hexBytes ldigits bs.

(** The verb [%02X] applied to a [byte]: two upper-case digits. *)
Definition fmt_02X_byte (b : Z) : string := hex2 udigits b.

(** The verb [%02X] applied to a [[]byte]: every byte as two upper-case
    digits.  The width only matters for the empty slice, whose encoding
    has no digit at all: [fmt] then writes the padding alone, two zeros. *)
Definition fmt_02X_bytes (bs : list Z) : string :=
  match bs with
  | [] => "00"
  | _ => hexBytes udigits bs
  end.

(** The verb [%c] applied to a code point below 128: that one byte. *)
Definition fmt_c (r : Z) : string :=
  String (ascii_of_N (Z.to_N r)) EmptyString.

End Hex.

(** ** Package upb *)

Module Upb.

Definition byte_wrap (x : Z) : Z := x mod 256.

(** [Checksum]: [x += c] over the message, then [-x], on a [byte]. *)
Definition Checksum (msg : list Z) : Z :=
  byte_wrap (- fold_left (fun x c => byte_wrap (x + c)) msg 0).

(** The test of [serve] on a decoded report (at least 7 bytes long there):
    [msg, sum := msg[:len(msg)-1], msg[len(msg)-1]] and
    [Checksum(msg) == sum].  On an empty slice the Go expressions panic;
    [serve] never evaluates them there. *)
Definition stripChecksum (frame : list Z) : list Z * Z :=
  (removelast frame, last frame 0).

Definition isValidChecksum (frame : list Z) : bool :=
  let (msg, sum) := stripChecksum frame in
  Checksum msg =? sum.

(** Flipping bit [k] of a byte. *)
Definition flipBit (k : Z) (b : Z) : Z := Z.lxor b (2 ^ k).

(** The codec's checksum in the words of the protocol: the two's
    complement (invert every bit, add one) of the byte sum, on 8 bits. *)
Definition sumBytes (msg : list Z) : Z := fold_right Z.add 0 msg.

Definition twosComplement8 (x : Z) : Z := (Z.lnot (x mod 256) + 1) mod 256.

(** *** Building and encoding a message *)

(** The fields of [Conn] that the pure functions read. *)
Record Conn : Type := { net : Z }.

Definition len {A : Type} (l : list A) : Z := Z.of_nat (List.length l).

(** [Message]: the packet header followed by the arguments.  The LEN
    field is the conversion [byte(6 + len(args) + 1)]. *)
Definition Message (c : Conn) (addr cmd : Z) (args : list Z) : list Z :=
  [ byte_wrap (6 + len args + 1); 16; net c; addr; 255; cmd ] ++ args.

Definition TXUPB : Z := 20.
Definition CR : ascii := "013"%char.

(** What [txUPB] writes to the port: the format [%c%02X%02X] and a
    carriage return, applied to [TXUPB], [msg] and [Checksum(msg)]. *)
Definition txUPB_text (msg : list Z) : string :=
  Hex.fmt_c TXUPB ++ Hex.fmt_02X_bytes msg
    ++ Hex.fmt_02X_byte (Checksum msg) ++ String CR EmptyString.

(** *** Splitting the input into frames *)

Inductive error : Type :=
| errPIMBusy
| errPIMError
| errMissingAck
| errTruncated
| errPort (code : nat).   (* an error returned by the port's Write *)

(** [bytes.IndexByte]: the index of the first [c] in [data], or -1. *)
Fixpoint IndexByte (data : string) (c : ascii) : Z :=
  match data with
  | EmptyString => -1
  | String d rest =>
      if Ascii.eqb d c then 0
      else let i := IndexByte rest c in
           if i <? 0 then -1 else i + 1
  end.

Definition slen (s : string) : Z := Z.of_nat (String.length s).

(** [scanMessage]: the number of bytes to consume, the token ([None] for
    the nil slice) and the error ([None] for nil). *)
Definition scanMessage (data : string) (atEOF : bool)
  : Z * option string * option error :=
  let i := IndexByte data CR in
  if 0 <=? i then (i + 1, Some (substring 0 (Z.to_nat i) data), None)
  else if atEOF && (0 <? slen data) then (slen data, None, Some errTruncated)
  else (0, None, None).

(** *** The control loop of [serve] *)

(** A request: its response channel (named by a number, a fresh one per
    call of [Send]) and the message to transmit. *)
Record req : Type := { resp : nat; msg : list Z }.

Definition req_eqb (a b : req) : bool :=
  Nat.eqb (resp a) (resp b)
  && (if list_eq_dec Z.eq_dec (msg a) (msg b) then true else false).

(** The calls of [c.logf], by format. *)
Inductive log : Type :=
| LogTx (hexmsg : string)             (* tx %q *)
| LogRx (s : string)                  (* rx %q *)
| LogResponse (err : option error)    (* response: %v *)
| LogFailedResponse                   (* failed to send response *)
| LogDecodeError (e : Hex.error)      (* message decode error: %v *)
| LogTooShort                         (* message too short *)
| LogInconsistentLength               (* inconsistent message length *)
| LogBadChecksum.                     (* bad checksum *)

(** What the loop does to the outside. *)
Inductive action : Type :=
| Dequeue (r : req)                         (* r := <-wr *)
| Logf (l : log)                            (* c.logf(...) *)
| PortWrite (text : string)                 (* fmt.Fprintf(c.port, ...) *)
| Deliver (r : req) (err : option error)    (* rq.resp <- err went through *)
| RX (m : list Z).                          (* c.rx(msg) *)

(** What the loop cannot decide itself: whether the write to the port
    fails, and whether the caller is parked on the response channel when
    [respond] offers the outcome. *)
Record world : Type := { write_err : option error; parked : bool }.

(** What [select] hands to the loop: a frame from [rd], or a pointer from
    [wr]; the pointer is nil when [wr] has been closed. *)
Inductive event : Type :=
| Frame (s : string)
| Request (r : option req).

(** One turn of the loop: the next value of [rq], a run-time panic, or
    the event's case is not selectable ([wr] is nil while [rq] is set). *)
Inductive result : Type :=
| Next (rq : option req) (acts : list action)
| Panic (acts : list action)
| Refused.

Definition after (pre : list action) (r : result) : result :=
  match r with
  | Next rq acts => Next rq (pre ++ acts)
  | Panic acts => Panic (pre ++ acts)
  | Refused => Refused
  end.

(** The closure [respond]: log, offer the outcome without blocking, and
    clear [rq].  Reading [rq.resp] on a nil [rq] panics. *)
Definition respond (w : world) (rq : option req) (err : option error) : result :=
  after [Logf (LogResponse err)]
    match rq with
    | None => Panic []
    | Some r =>
        Next None (if parked w then [Deliver r err] else [Logf LogFailedResponse])
    end.

Definition txUPB (w : world) (m : list Z) : list action * option error :=
  ([Logf (LogTx (Hex.EncodeToString m)); PortWrite (txUPB_text m)], write_err w).

(** The test [int(msg[0]&0x1f) != len(msg)], which only logs. *)
Definition lengthWarning (m : list Z) : list action :=
  if Z.land (nth 0 m 0) 31 =? len m then []
  else [Logf LogInconsistentLength].

(** The case ['U'] of the switch: a message report. *)
Definition report (rq : option req) (payload : string) : result :=
  match Hex.DecodeString payload with
  | (_, Some e) => Next rq [Logf (LogDecodeError e)]
  | (m, None) =>
      if len m <? 7 then Next rq [Logf LogTooShort]
      else
        let warn := lengthWarning m in
        let (body, sum) := stripChecksum m in
        if negb (Checksum body =? sum) then Next rq (warn ++ [Logf LogBadChecksum])
        else if negb (Z.land (nth 1 body 0) 3 =? 0) then Next rq warn
        else Next rq (warn ++ [RX body])
  end.

Definition serve_step (w : world) (rq : option req) (ev : event) : result :=
  match ev with
  | Frame s =>
      after [Logf (LogRx s)]
        match s with
        | String p (String k rest) =>
            if negb (Ascii.eqb p "P") then Next rq []
            else if Ascii.eqb k "A" then Next rq []
            else if Ascii.eqb k "B" then respond w rq (Some errPIMBusy)
            else if Ascii.eqb k "E" then respond w rq (Some errPIMError)
            else if Ascii.eqb k "K" then respond w rq None
            else if Ascii.eqb k "N" then
              match rq with
              | None => Panic []                     (* rq.msg on a nil rq *)
              | Some r =>
                  match nth_error (msg r) 1 with
                  | None => Panic []                 (* index out of range *)
                  | Some ctl =>
                      respond w rq
                        (if Z.land ctl 16 =? 0 then None else Some errMissingAck)
                  end
              end
            else if Ascii.eqb k "U" then report rq rest
            else Next rq []
        | _ => Next rq []
        end
  | Request r =>
      match rq with
      | Some _ => Refused
      | None =>
          match r with
          | None => Panic []                         (* rq.msg on a nil rq *)
          | Some r' =>
              let (acts, err) := txUPB w (msg r') in
              after (Dequeue r' :: acts)
                match err with
                | None => Next (Some r') []
                | Some e => respond w (Some r') (Some e)
                end
          end
      end
  end.

(** The loop over a sequence of events, each with its world. *)
Fixpoint serve (rq : option req) (tr : list (world * event)) : result :=
  match tr with
  | [] => Next rq []
  | (w, ev) :: tr' =>
      match serve_step w rq ev with
      | Next rq' acts => after acts (serve rq' tr')
      | stop => stop
      end
  end.

Definition Idle : option req := None.
Definition AwaitingResponse (r : req) : option req := Some r.

(** *** [Close] and [Send] on the request channel *)

Record wr_chan : Type := { closed : bool }.

(** [Close]: [close(c.wr)]; closing a closed channel panics ([None]). *)
Definition Close (ch : wr_chan) : option wr_chan :=
  if closed ch then None else Some {| closed := true |}.

(** The first statement of [Send], [c.wr <- &req{ch, msg}]: the request
    is offered to the loop, or the send panics on a closed channel. *)
Inductive send_start : Type :=
| SendOffers (r : req)
| SendPanics.

Definition Send_start (ch : wr_chan) (r : req) : send_start :=
  if closed ch then SendPanics else SendOffers r.

(** What a receive on [wr] yields once it is closed: the nil pointer. *)
Definition recv_closed : event := Request None.

(** *** Reading a sequence of actions *)

Definition acts_of (r : result) : list action :=
  match r with
  | Next _ acts => acts
  | Panic acts => acts
  | Refused => []
  end.

Definition delivered_reports (acts : list action) : list (list Z) :=
  flat_map (fun a => match a with RX m => [m] | _ => [] end) acts.

Definition writes (acts : list action) : list string :=
  flat_map (fun a => match a with PortWrite t => [t] | _ => [] end) acts.

Definition dequeued (acts : list action) : list req :=
  flat_map (fun a => match a with Dequeue r => [r] | _ => [] end) acts.

Definition submitted (tr : list (world * event)) : list req :=
  flat_map (fun we => match snd we with Request (Some r) => [r] | _ => [] end) tr.

(** The request in flight after a sequence of actions, or [None] when the
    sequence breaks the discipline: a request is taken only when none is
    in flight, the port is written only with the message of the request in
    flight, and an outcome goes to the request in flight and ends it. *)
Fixpoint inflight (cur : option req) (acts : list action) : option (option req) :=
  match acts with
  | [] => Some cur
  | a :: acts' =>
      match a, cur with
      | Dequeue r, None => inflight (Some r) acts'
      | Dequeue _, Some _ => None
      | PortWrite t, Some r =>
          if String.eqb t (txUPB_text (msg r)) then inflight cur acts' else None
      | PortWrite _, None => None
      | Deliver r' _, Some r =>
          if req_eqb r' r then inflight None acts' else None
      | Deliver _ _, None => None
      | Logf LogFailedResponse, Some _ => inflight None acts'
      | Logf LogFailedResponse, None => None
      | _, _ => inflight cur acts'
      end
  end.

(** What a turn of the loop promises about the request in flight. *)
Definition keeps_discipline (rq : option req) (res : result) : Prop :=
  match res with
  | Next rq' acts => inflight rq acts = Some rq'
  | Panic acts => inflight rq acts = Some rq
  | Refused => True
  end.

(** Actions that leave the request in flight alone. *)
Definition neutral (acts : list action) : Prop :=
  forall cur, inflight cur acts = Some cur.

(** Actions that neither take a request nor write to the port. *)
Definition quiet (acts : list action) : Prop :=
  dequeued acts = [] /\ writes acts = [].

(** *** Vocabulary of the statements *)

(** A report frame: PU and the hex payload. *)
Definition reportFrame (payload : string) : string :=
  String "P" (String "U" payload).

Definition is_byte (b : Z) : Prop := 0 <= b < 256.

Definition isUpperHex (c : ascii) : bool :=
  let n := Hex.code c in
  ((48 <=? n) && (n <=? 57)) || ((65 <=? n) && (n <=? 70)).

Fixpoint allChars (p : ascii -> bool) (s : string) : bool :=
  match s with
  | EmptyString => true
  | String c s' => p c && allChars p s'
  end.

(** *** The commands built on [Message] and [Send] *)

(** The message that [Goto] hands to [Send]: [c.Message(id, 0x22, {val})]. *)
Definition Goto (c : Conn) (id val : Z) : list Z := Message c id 34 [val].

(** The message that [ReportState] hands to [Send]:
    [c.Message(id, 0x30, nil)]. *)
Definition ReportState (c : Conn) (id : Z) : list Z := Message c id 48 [].

(** *** More ways to read a turn of the loop *)

Definition is_panic (res : result) : bool :=
  match res with
  | Panic _ => true
  | _ => false
  end.

(** The requests that [respond] has ended: the outcome was handed over, or
    nobody was parked and it was dropped. *)
Definition ended (acts : list action) : list (req + unit) :=
  flat_map (fun a => match a with
                     | Deliver r _ => [inl r]
                     | Logf LogFailedResponse => [inr tt]
                     | _ => []
                     end) acts.

Definition pending (rq : option req) : Z :=
  match rq with
  | Some _ => 1
  | None => 0
  end.

Definition isHexDigit (c : ascii) : bool :=
  match Hex.fromHexChar c with
  | Some _ => true
  | None => false
  end.

(** No carriage return among the characters of [s]. *)
Definition noCR (s : string) : bool :=
  allChars (fun d => negb (Ascii.eqb d CR)) s.

End Upb.

Import Upb.

(** ** Package main: the callbacks that use the driver *)

Module Main.

Definition netID : Z := 180.

(** The connection that [main] opens: [Network: netID]. *)
Definition conn : Conn := {| net := netID |}.

(** What one call of [rxUPB] does in its goroutine: nothing, a call of
    [conn.Send] (after the two-second sleep of the first case or at once),
    or an index out of range. *)
Inductive reaction : Type :=
| Nothing
| SendMsg (slept : bool) (m : list Z)
| IndexPanic.

(** [msg[i]] put to a test; [None] when the index is out of range. *)
Definition at_index (m : list Z) (i : nat) (p : Z -> bool) : option bool :=
  option_map p (nth_error m i).

(** [a && b]: [b] is not evaluated unless [a] is true. *)
Definition and_then (a b : option bool) : option bool :=
  match a with
  | Some true => b
  | other => other
  end.

Definition linkCase (m : list Z) : option bool :=
  and_then (at_index m 0 (fun b => negb (Z.land b 128 =? 0)))
  (and_then (at_index m 2 (fun b => b =? netID))
  (and_then (at_index m 3 (fun b => b =? 11))
            (at_index m 5 (fun b => b =? 32)))).

Definition stateCase (m : list Z) : option bool :=
  and_then (at_index m 0 (fun b => Z.land b 128 =? 0))
  (and_then (at_index m 2 (fun b => b =? netID))
  (and_then (at_index m 3 (fun b => b =? 255))
  (and_then (at_index m 4 (fun b => b =? 11))
            (at_index m 5 (fun b => b =? 134))))).

(** [rxUPB]: the two cases of its switch, in order. *)
Definition rxUPB (m : list Z) : reaction :=
  match linkCase m with
  | None => IndexPanic
  | Some true => SendMsg true [7; 16; netID; 11; 255; 48]
  | Some false =>
      match stateCase m with
      | None => IndexPanic
      | Some false => Nothing
      | Some true =>
          match nth_error m 6 with
          | None => IndexPanic
          | Some b => SendMsg false [7; 16; netID; 11; 255; if b =? 0 then 32 else 33]
          end
      end
  end.

(** An [int] of [w] bits (32 or 64, by platform), with its wrap-around. *)
Definition int_wrap (w : Z) (x : Z) : Z :=
  (x + 2 ^ (w - 1)) mod 2 ^ w - 2 ^ (w - 1).

(** The level that the huejack callback passes to [Goto]:
    [byte((val*100+128)/256)], with the division of Go, towards zero. *)
Definition hueLevel (w : Z) (val : Z) : Z :=
  byte_wrap (Z.quot (int_wrap w (int_wrap w (val * 100) + 128)) 256).

Record Device : Type := { Name : string; ID : Z; Dimmable : bool }.

Definition Devices : list Device :=
  [ {| Name := "Family Lights"; ID := 1; Dimmable := true |};
    {| Name := "Family Fan"; ID := 2; Dimmable := false |};
    {| Name := "Kitchen Lights"; ID := 3; Dimmable := true |} ].

(** The huejack callback: the message it sends with [conn.Goto], or [None]
    when [cfg.Devices[key]] is out of range. *)
Definition hueHandler (w : Z) (key val : Z) : option (list Z) :=
  if (key <? 0) || (len Devices <=? key) then None
  else match nth_error Devices (Z.to_nat key) with
       | Some dev => Some (Goto conn (ID dev) (hueLevel w val))
       | None => None
       end.

End Main.

Section ChecksumFacts.

Lemma fold_sum_wrap (msg : list Z) (x : Z) :
  fold_left (fun x c => byte_wrap (x + c)) msg (byte_wrap x)
  = byte_wrap (x + sumBytes msg).
Proof.
  revert x; induction msg as [|c msg IH]; intros x; simpl.
  - now rewrite Z.add_0_r.
  - assert (E : byte_wrap (byte_wrap x + c) = byte_wrap (x + c))
      by (unfold byte_wrap; apply Zplus_mod_idemp_l).
    rewrite E, IH. f_equal. lia.
Qed.

Lemma Checksum_sum (msg : list Z) :
  Checksum msg = (- sumBytes msg) mod 256.
Proof.
  unfold Checksum.
  change 0 with (byte_wrap 0) at 1. rewrite fold_sum_wrap. simpl.
  unfold byte_wrap.
  rewrite <- (Z.sub_0_l (sumBytes msg mod 256)), <- (Z.sub_0_l (sumBytes msg)).
  now rewrite Zminus_mod_idemp_r.
Qed.

Lemma sumBytes_app (a b : list Z) :
  sumBytes (a ++ b) = sumBytes a + sumBytes b.
Proof. induction a as [|x a IH]; simpl; lia. Qed.

Lemma stripChecksum_snoc (msg : list Z) (c : Z) :
  stripChecksum (msg ++ [c]) = (msg, c).
Proof.
  unfold stripChecksum. now rewrite removelast_last, last_last.
Qed.

Lemma land_pow2_clear (b k : Z) :
  0 <= k -> Z.testbit b k = false -> Z.land b (2 ^ k) = 0.
Proof.
  intros Hk Hb. apply Z.bits_inj'. intros n Hn.
  rewrite Z.land_spec, Z.bits_0, Z.pow2_bits_eqb by lia.
  destruct (Z.eqb_spec k n) as [->|]; [now rewrite Hb | apply andb_false_r].
Qed.

(** Flipping a bit adds or subtracts its weight. *)
Lemma flipBit_weight (b k : Z) :
  0 <= k ->
  flipBit k b = if Z.testbit b k then b - 2 ^ k else b + 2 ^ k.
Proof.
  intros Hk. unfold flipBit.
  destruct (Z.testbit b k) eqn:Hb.
  - assert (Hc : Z.testbit (Z.lxor b (2 ^ k)) k = false).
    { rewrite Z.lxor_spec, Hb, Z.pow2_bits_eqb, Z.eqb_refl by lia. reflexivity. }
    pose proof (Z.add_nocarry_lxor _ _ (land_pow2_clear _ _ Hk Hc)) as E.
    rewrite Z.lxor_assoc, Z.lxor_nilpotent, Z.lxor_0_r in E. lia.
  - symmetry. apply Z.add_nocarry_lxor. now apply land_pow2_clear.
Qed.

Lemma pow2_not_mult_256 (k q : Z) : 0 <= k < 8 -> 2 ^ k <> 256 * q.
Proof.
intros Hk E.
assert (M : (2 ^ k) mod 256 = 0) by (rewrite E, Z.mul_comm; apply Z.mod_mul; lia).
revert M. rewrite <- (Z2Nat.id k) by lia.
assert (Hj : (Z.to_nat k < 8)%nat) by lia.
revert Hj. generalize (Z.to_nat k) as j. intros j Hj.
do 8 (destruct j as [|j]; [vm_compute; discriminate|]). lia.
Qed.

Lemma mod256_shift_neq (s k : Z) (up : bool) :
  0 <= k < 8 ->
  (- (if up then s + 2 ^ k else s - 2 ^ k)) mod 256 <> (- s) mod 256.
Proof.
  intros Hk E.
  pose proof (Z.div_mod (- (if up then s + 2 ^ k else s - 2 ^ k)) 256 ltac:(lia)) as D1.
  pose proof (Z.div_mod (- s) 256 ltac:(lia)) as D2.
  rewrite E in D1.
  set (q1 := (- (if up then s + 2 ^ k else s - 2 ^ k)) / 256) in *.
  set (q2 := (- s) / 256) in *.
  destruct up.
  - apply (pow2_not_mult_256 k (q2 - q1) Hk). lia.
  - apply (pow2_not_mult_256 k (q1 - q2) Hk). lia.
Qed.

End ChecksumFacts.

(** C1. For every byte sequence [m], the sequence [m] followed by
    [Checksum m] passes the checksum test of [serve]; flipping one bit
    [k < 8] of the appended checksum byte, or of any byte of [m], makes the
    test fail; and [Checksum] is the two's complement of the byte sum,
    modulo 256 (a byte). *)
Theorem Checksum_detects_bit_flips (m : list Z) :
  isValidChecksum (m ++ [Checksum m]) = true
  /\ (forall k, 0 <= k < 8 ->
        isValidChecksum (m ++ [flipBit k (Checksum m)]) = false)
  /\ (forall pre b post k, m = pre ++ b :: post -> 0 <= k < 8 ->
        isValidChecksum ((pre ++ flipBit k b :: post) ++ [Checksum m]) = false)
  /\ Checksum m = twosComplement8 (sumBytes m)
  /\ Checksum m = (- sumBytes m) mod 256
  /\ 0 <= Checksum m < 256.
Proof.
  unfold isValidChecksum. rewrite stripChecksum_snoc.
  split; [apply Z.eqb_refl|].
  split; [|split; [|split; [|split]]].
  - intros k Hk. rewrite stripChecksum_snoc.
    apply Z.eqb_neq. rewrite flipBit_weight by lia.
    assert (0 < 2 ^ k) by (apply Z.pow_pos_nonneg; lia).
    destruct (Z.testbit (Checksum m) k); lia.
  - intros pre b post k -> Hk. rewrite stripChecksum_snoc.
    apply Z.eqb_neq. rewrite !Checksum_sum.
    rewrite !sumBytes_app. simpl. rewrite flipBit_weight by lia.
    destruct (Z.testbit b k).
    + replace (sumBytes pre + (b - 2 ^ k + sumBytes post))
        with ((sumBytes pre + (b + sumBytes post)) - 2 ^ k) by lia.
      apply (mod256_shift_neq _ k false Hk).
    + replace (sumBytes pre + (b + 2 ^ k + sumBytes post))
        with ((sumBytes pre + (b + sumBytes post)) + 2 ^ k) by lia.
      apply (mod256_shift_neq _ k true Hk).
  - rewrite Checksum_sum. unfold twosComplement8, Z.lnot.
    replace (Z.pred (- (sumBytes m mod 256)) + 1) with (0 - sumBytes m mod 256) by lia.
    rewrite Zminus_mod_idemp_r. f_equal.
  - apply Checksum_sum.
  - unfold Checksum, byte_wrap. apply Z.mod_pos_bound. lia.
Qed.

Lemma Checksum_detects_bit_flips_witness :
  isValidChecksum ([8; 16; 180] ++ [flipBit 3 (Checksum [8; 16; 180])]) = false
  /\ isValidChecksum (([8] ++ flipBit 7 16 :: [180]) ++ [Checksum [8; 16; 180]]) = false.
Proof.
  split.
  - apply (proj1 (proj2 (Checksum_detects_bit_flips [8; 16; 180]))). lia.
  - apply (proj1 (proj2 (proj2 (Checksum_detects_bit_flips [8; 16; 180])))).
    + reflexivity.
    + lia.
Defined.

(** ** The status frames *)

Lemma land16_testbit (ctl : Z) :
  (Z.land ctl 16 =? 0) = negb (Z.testbit ctl 4).
Proof.
  destruct (Z.testbit ctl 4) eqn:Hb; simpl.
  - apply Z.eqb_neq. intros E.
    assert (F : Z.testbit (Z.land ctl 16) 4 = true)
      by (rewrite Z.land_spec, Hb; reflexivity).
    rewrite E in F. discriminate.
  - apply Z.eqb_eq. change 16 with (2 ^ 4). apply land_pow2_clear; [lia|assumption].
Qed.

(** C2. With a request [r] pending, a frame that starts with PA changes
    nothing; PB, PE and PK offer r the outcomes busy, error and success;
    PN offers [errMissingAck] when bit 0x10 of the control byte of r's
    message is set and success otherwise.  The outcome reaches the caller
    parked on r's response channel, and after each of PB, PE, PK and PN the
    loop is idle again. *)
Theorem status_frame_outcomes (w : world) (r : req) (ctl : Z) (rest : string) :
  nth_error (msg r) 1 = Some ctl ->
  let frame k := String "P" (String k rest) in
  let offer err :=
    [Logf (LogResponse err);
     if parked w then Deliver r err else Logf LogFailedResponse] in
  serve_step w (AwaitingResponse r) (Frame (frame "A"%char))
    = Next (AwaitingResponse r) [Logf (LogRx (frame "A"%char))]
  /\ serve_step w (AwaitingResponse r) (Frame (frame "B"%char))
    = Next Idle (Logf (LogRx (frame "B"%char)) :: offer (Some errPIMBusy))
  /\ serve_step w (AwaitingResponse r) (Frame (frame "E"%char))
    = Next Idle (Logf (LogRx (frame "E"%char)) :: offer (Some errPIMError))
  /\ serve_step w (AwaitingResponse r) (Frame (frame "K"%char))
    = Next Idle (Logf (LogRx (frame "K"%char)) :: offer None)
  /\ serve_step w (AwaitingResponse r) (Frame (frame "N"%char))
    = Next Idle (Logf (LogRx (frame "N"%char))
                   :: offer (if Z.testbit ctl 4 then Some errMissingAck else None)).
Proof.
  intros Hctl frame offer. unfold frame, offer, AwaitingResponse, Idle.
  repeat split; try (cbn; destruct (parked w); reflexivity).
  cbn -[nth_error Z.land Z.eqb Z.testbit]. rewrite Hctl, land16_testbit.
  destruct (Z.testbit ctl 4), (parked w); reflexivity.
Qed.

Lemma status_frame_outcomes_witness :
  let r := {| resp := 0; msg := [8; 16; 180; 1; 255; 34; 100] |} in
  let w := {| write_err := None; parked := true |} in
  serve_step w (AwaitingResponse r) (Frame "PN")
  = Next Idle [Logf (LogRx "PN"); Logf (LogResponse (Some errMissingAck));
               Deliver r (Some errMissingAck)].
Proof.
  intros r w.
  exact (proj2 (proj2 (proj2 (proj2
    (status_frame_outcomes w r 16 EmptyString eq_refl))))).
Defined.

(** C10. With no request pending, a frame that starts with PB, PE, PK or PN
    makes the loop panic: [respond] logs and then reads [rq.resp] on the nil
    request, and the PN case reads [rq.msg] before that.  Nothing checks
    that a request exists. *)
Theorem status_frame_while_idle_panics (w : world) (rest : string) :
  let frame k := String "P" (String k rest) in
  serve_step w Idle (Frame (frame "B"%char))
    = Panic [Logf (LogRx (frame "B"%char)); Logf (LogResponse (Some errPIMBusy))]
  /\ serve_step w Idle (Frame (frame "E"%char))
    = Panic [Logf (LogRx (frame "E"%char)); Logf (LogResponse (Some errPIMError))]
  /\ serve_step w Idle (Frame (frame "K"%char))
    = Panic [Logf (LogRx (frame "K"%char)); Logf (LogResponse None)]
  /\ serve_step w Idle (Frame (frame "N"%char))
    = Panic [Logf (LogRx (frame "N"%char))].
Proof. repeat split. Qed.

(** ** Message reports *)

Lemma serve_step_report (w : world) (rq : option req) (payload : string) :
  serve_step w rq (Frame (reportFrame payload))
  = after [Logf (LogRx (reportFrame payload))] (report rq payload).
Proof. reflexivity. Qed.

Lemma len_snoc {A : Type} (l : list A) (x : A) : len (l ++ [x]) = len l + 1.
Proof. unfold len. rewrite length_app. simpl. lia. Qed.

(** The report case on a payload that decodes to at least 7 bytes. *)
Lemma report_decoded (rq : option req) (payload : string) (body : list Z) (sum : Z) :
  Hex.DecodeString payload = (body ++ [sum], None) ->
  6 <= len body ->
  report rq payload
  = if negb (Checksum body =? sum)
    then Next rq (lengthWarning (body ++ [sum]) ++ [Logf LogBadChecksum])
    else if negb (Z.land (nth 1 body 0) 3 =? 0)
         then Next rq (lengthWarning (body ++ [sum]))
         else Next rq (lengthWarning (body ++ [sum]) ++ [RX body]).
Proof.
  intros Hdec Hlen. unfold report. rewrite Hdec.
  destruct (Z.ltb_spec (len (body ++ [sum])) 7) as [Hs|_].
  - rewrite len_snoc in Hs. lia.
  - now rewrite stripChecksum_snoc.
Qed.

Lemma delivered_reports_app (a b : list action) :
  delivered_reports (a ++ b) = delivered_reports a ++ delivered_reports b.
Proof. apply flat_map_app. Qed.

Lemma delivered_lengthWarning (m : list Z) :
  delivered_reports (lengthWarning m) = [].
Proof. unfold lengthWarning. now destruct (_ =? _). Qed.

(** A report whose hex payload decodes, with at least 7 bytes and a
    matching checksum, but with a retransmit count of 1, is dropped: the
    three failures are absent and nothing reaches [rx]. *)
Lemma report_retransmit_not_delivered :
  let payload := "07010102FF22D4"%string in
  let m := [7; 1; 1; 2; 255; 34; 212] in
  let w := {| write_err := None; parked := true |} in
  Hex.DecodeString payload = (m, None)
  /\ 7 <= len m
  /\ isValidChecksum m = true
  /\ serve_step w Idle (Frame (reportFrame payload))
     = Next Idle [Logf (LogRx (reportFrame payload))]
  /\ delivered_reports (acts_of (serve_step w Idle (Frame (reportFrame payload))))
     <> [fst (stripChecksum m)].
Proof. cbv zeta. repeat split; try reflexivity; try (vm_compute; discriminate). Qed.

(** C3 (amended). On a report frame: a payload that is not valid hex is
    logged as a decode error; one that decodes to fewer than 7 bytes is
    logged as too short; one whose last byte differs from the checksum of
    the bytes before it is logged as a bad checksum; in these three cases
    nothing reaches [rx].  Otherwise the message without its checksum byte
    is handed to [rx] when its retransmit count is zero, and dropped when it
    is not.  A length field that disagrees with the byte count only adds a
    log line: the outcome is the same. *)
Theorem report_outcomes (w : world) (rq : option req) (payload : string) :
  let res := serve_step w rq (Frame (reportFrame payload)) in
  let rxlog := Logf (LogRx (reportFrame payload)) in
  (forall bs e, Hex.DecodeString payload = (bs, Some e) ->
     res = Next rq [rxlog; Logf (LogDecodeError e)])
  /\ (forall m, Hex.DecodeString payload = (m, None) -> len m < 7 ->
     res = Next rq [rxlog; Logf LogTooShort])
  /\ (forall body sum,
     Hex.DecodeString payload = (body ++ [sum], None) -> 7 <= len (body ++ [sum]) ->
     let warn := lengthWarning (body ++ [sum]) in
     (Z.land (nth 0 (body ++ [sum]) 0) 31 = len (body ++ [sum]) -> warn = [])
     /\ (Z.land (nth 0 (body ++ [sum]) 0) 31 <> len (body ++ [sum]) ->
         warn = [Logf LogInconsistentLength])
     /\ (Checksum body <> sum ->
         res = Next rq (rxlog :: warn ++ [Logf LogBadChecksum]))
     /\ (Checksum body = sum -> Z.land (nth 1 body 0) 3 <> 0 ->
         res = Next rq (rxlog :: warn))
     /\ (Checksum body = sum -> Z.land (nth 1 body 0) 3 = 0 ->
         res = Next rq (rxlog :: warn ++ [RX body]))).
Proof.
  intros res rxlog. unfold res, rxlog. rewrite serve_step_report.
  split; [|split].
  - intros bs e Hdec. unfold report. now rewrite Hdec.
  - intros m Hdec Hlen. unfold report. rewrite Hdec.
    destruct (Z.ltb_spec (len m) 7); [reflexivity|lia].
  - intros body sum Hdec Hlen. rewrite len_snoc in Hlen.
    rewrite (report_decoded rq payload body sum Hdec) by lia.
    split; [|split; [|split; [|split]]].
    + intros E. unfold lengthWarning. now rewrite (proj2 (Z.eqb_eq _ _) E).
    + intros E. unfold lengthWarning. now rewrite (proj2 (Z.eqb_neq _ _) E).
    + intros E. now rewrite (proj2 (Z.eqb_neq _ _) E).
    + intros E1 E2.
      now rewrite (proj2 (Z.eqb_eq _ _) E1), (proj2 (Z.eqb_neq _ _) E2).
    + intros E1 E2.
      now rewrite (proj2 (Z.eqb_eq _ _) E1), (proj2 (Z.eqb_eq _ _) E2).
Qed.

Lemma report_outcomes_witness :
  let w := {| write_err := None; parked := true |} in
  serve_step w Idle (Frame (reportFrame "07010g"))
    = Next Idle [Logf (LogRx (reportFrame "07010g"));
                 Logf (LogDecodeError (Hex.InvalidByteError "g"))]
  /\ serve_step w Idle (Frame (reportFrame "0700F9"))
    = Next Idle [Logf (LogRx (reportFrame "0700F9")); Logf LogTooShort]
  /\ serve_step w Idle (Frame (reportFrame "08000102FF2264"))
    = Next Idle [Logf (LogRx (reportFrame "08000102FF2264"));
                 Logf LogInconsistentLength; Logf LogBadChecksum]
  /\ serve_step w Idle (Frame (reportFrame "07010102FF22D4"))
    = Next Idle [Logf (LogRx (reportFrame "07010102FF22D4"))]
  /\ serve_step w Idle (Frame (reportFrame "08000102FF22D4"))
    = Next Idle [Logf (LogRx (reportFrame "08000102FF22D4"));
                 Logf LogInconsistentLength; RX [8; 0; 1; 2; 255; 34]].
Proof.
  intros w.
  split; [|split; [|split; [|split]]].
  - apply (proj1 (report_outcomes w Idle "07010g") [7; 1]). reflexivity.
  - apply (proj1 (proj2 (report_outcomes w Idle "0700F9")) [7; 0; 249]).
    + reflexivity.
    + reflexivity.
  - destruct (proj2 (proj2 (report_outcomes w Idle "08000102FF2264"))
                [8; 0; 1; 2; 255; 34] 100 eq_refl) as (_ & _ & H & _ & _).
    + vm_compute. discriminate.
    + apply H. vm_compute. discriminate.
  - destruct (proj2 (proj2 (report_outcomes w Idle "07010102FF22D4"))
                [7; 1; 1; 2; 255; 34] 212 eq_refl) as (_ & _ & _ & H & _).
    + vm_compute. discriminate.
    + apply H; [reflexivity | vm_compute; discriminate].
  - destruct (proj2 (proj2 (report_outcomes w Idle "08000102FF22D4"))
                [8; 0; 1; 2; 255; 34] 212 eq_refl) as (_ & _ & _ & _ & H).
    + vm_compute. discriminate.
    + apply H; reflexivity.
Defined.

Lemma nth_removelast_snoc (body : list Z) (sum : Z) (i : nat) :
  (i < List.length body)%nat -> nth i (body ++ [sum]) 0 = nth i body 0.
Proof. intros H. now apply app_nth1. Qed.

Lemma snoc_cases {A : Type} (l : list A) :
  l = [] \/ exists body x, l = body ++ [x].
Proof.
  destruct l as [|a l]; [now left | right].
  destruct (@exists_last A (a :: l) ltac:(discriminate)) as (body & x & E). eauto.
Qed.

(** A report of 6 bytes with a matching checksum and a retransmit count
    of zero is logged as too short and dropped: nothing reaches [rx]. *)
Lemma short_report_not_delivered :
  let payload := "0600B4FF0B3C"%string in
  let m := [6; 0; 180; 255; 11; 60] in
  let w := {| write_err := None; parked := true |} in
  Hex.DecodeString payload = (m, None)
  /\ isValidChecksum m = true
  /\ Z.land (nth 1 m 0) 3 = 0
  /\ serve_step w Idle (Frame (reportFrame payload))
     = Next Idle [Logf (LogRx (reportFrame payload)); Logf LogTooShort]
  /\ delivered_reports (acts_of (serve_step w Idle (Frame (reportFrame payload))))
     <> [fst (stripChecksum m)].
Proof. cbv zeta. repeat split; try reflexivity; vm_compute; discriminate. Qed.

(** C4 (amended). For every report frame whose payload decodes to the
    bytes [m]: when the two low bits of the control byte [m[1]] are not both
    zero, nothing reaches [rx]; when they are zero and [m] is a header of 6
    bytes or more followed by the checksum of what precedes it (7 bytes or
    more in all), [rx] is called exactly once, with [m] without its checksum
    byte.  [rq] is left as it was. *)
Theorem report_delivery (w : world) (rq : option req) (payload : string) (m : list Z) :
  Hex.DecodeString payload = (m, None) ->
  let res := serve_step w rq (Frame (reportFrame payload)) in
  (Z.land (nth 1 m 0) 3 <> 0 ->
     delivered_reports (acts_of res) = [] /\ exists acts, res = Next rq acts)
  /\ (forall body sum,
        m = body ++ [sum] -> 6 <= len body -> Checksum body = sum ->
        Z.land (nth 1 m 0) 3 = 0 ->
        delivered_reports (acts_of res) = [body] /\ exists acts, res = Next rq acts).
Proof.
  intros Hdec res. unfold res. rewrite serve_step_report. split.
  - intros Hbits.
    destruct (Z.ltb_spec (len m) 7) as [Hs|Hl].
    + unfold report. rewrite Hdec.
      rewrite (proj2 (Z.ltb_lt _ _) Hs). simpl. eauto.
    + destruct (snoc_cases m) as [->|(body & sum & ->)];
        [unfold len in Hl; simpl in Hl; lia|].
      rewrite len_snoc in Hl.
      rewrite (report_decoded rq payload body sum Hdec) by lia.
      rewrite nth_removelast_snoc in Hbits by (unfold len in Hl; lia).
      rewrite (proj2 (Z.eqb_neq _ _) Hbits).
      destruct (negb (Checksum body =? sum)); simpl;
        rewrite ?delivered_reports_app, delivered_lengthWarning; simpl; eauto.
  - intros body sum -> Hlen Hsum Hbits.
    rewrite (report_decoded rq payload body sum Hdec) by lia.
    rewrite nth_removelast_snoc in Hbits by (unfold len in Hlen; lia).
    rewrite (proj2 (Z.eqb_eq _ _) Hsum), (proj2 (Z.eqb_eq _ _) Hbits). simpl.
    rewrite delivered_reports_app, delivered_lengthWarning. simpl. eauto.
Qed.

Lemma report_delivery_witness :
  let w := {| write_err := None; parked := false |} in
  let res1 := serve_step w Idle (Frame (reportFrame "07020102FF22D3")) in
  let res0 := serve_step w Idle (Frame (reportFrame "07000102ff22d5")) in
  delivered_reports (acts_of res1) = []
  /\ delivered_reports (acts_of res0) = [[7; 0; 1; 2; 255; 34]].
Proof.
  intros w res1 res0. split.
  - apply (proj1 (report_delivery w Idle "07020102FF22D3"
                    [7; 2; 1; 2; 255; 34; 211] eq_refl)).
    vm_compute. discriminate.
  - apply (proj2 (report_delivery w Idle "07000102ff22d5"
                    [7; 0; 1; 2; 255; 34; 213] eq_refl)
             [7; 0; 1; 2; 255; 34] 213).
    + reflexivity.
    + vm_compute. discriminate.
    + reflexivity.
    + reflexivity.
Defined.

(** ** Building a message *)

(** With 249 arguments the LEN field is 0, not 256. *)
Lemma Message_LEN_wraps :
  let args := repeat 0 249 in
  len args = 249
  /\ nth 0 (Message {| net := 180 |} 1 34 args) 0 = 0
  /\ nth 0 (Message {| net := 180 |} 1 34 args) 0 <> 6 + len args + 1.
Proof. cbv zeta. repeat split. vm_compute. discriminate. Qed.

(** C5 (amended). [Message] with destination 0x01, command 0x22 and the
    argument 0x64 on network 0xB4 is 08 10 B4 01 FF 22 64.  The LEN byte of
    a built message is 6 + the number of arguments + 1 modulo 256: it is
    that sum itself for up to 248 arguments. *)
Theorem Message_layout (c : Conn) (addr cmd : Z) (args : list Z) :
  Message {| net := 180 |} 1 34 [100] = [8; 16; 180; 1; 255; 34; 100]
  /\ nth 0 (Message c addr cmd args) 0 = (6 + len args + 1) mod 256
  /\ (len args <= 248 -> nth 0 (Message c addr cmd args) 0 = 6 + len args + 1)
  /\ Message c addr cmd args
     = nth 0 (Message c addr cmd args) 0 :: 16 :: net c :: addr :: 255 :: cmd :: args.
Proof.
  repeat split. intros H.
  change (nth 0 (Message c addr cmd args) 0) with (byte_wrap (6 + len args + 1)).
  unfold byte_wrap. apply Z.mod_small. unfold len in *. lia.
Qed.

Lemma Message_layout_witness :
  nth 0 (Message {| net := 180 |} 1 48 []) 0 = 6 + len (@nil Z) + 1.
Proof.
  apply (proj1 (proj2 (proj2 (Message_layout {| net := 180 |} 1 48 [])))).
  vm_compute. discriminate.
Defined.

(** ** Splitting the input *)

Section Framing.

Lemma IndexByte_frame (tok rest : string) :
IndexByte tok CR < 0 ->
IndexByte (tok ++ String CR rest) CR = slen tok.
Proof.
induction tok as [|d tok IH]; intros Hno; [reflexivity|].
cbn [IndexByte append] in *.
destruct (Ascii.eqb d CR); [lia|].
destruct (Z.ltb_spec (IndexByte tok CR) 0) as [Hlt|Hge]; [|lia].
rewrite (IH Hlt). unfold slen. cbn [String.length].
destruct (Z.ltb_spec (Z.of_nat (String.length tok)) 0); lia.
Qed.

Lemma substring_prefix (tok rest : string) :
substring 0 (String.length tok) (tok ++ rest) = tok.
Proof.
induction tok as [|d tok IH]; cbn [append String.length substring].
- now destruct rest.
- now rewrite IH.
Qed.

(** A complete frame is cut at its carriage return, whatever follows and
    whether or not the input has ended. *)
Lemma scanMessage_frame (tok rest : string) (atEOF : bool) :
IndexByte tok CR < 0 ->
scanMessage (tok ++ String CR rest) atEOF = (slen tok + 1, Some tok, None).
Proof.
intros Hno. unfold scanMessage. rewrite (IndexByte_frame tok rest Hno).
unfold slen. destruct (Z.leb_spec 0 (Z.of_nat (String.length tok))); [|lia].
now rewrite Nat2Z.id, substring_prefix.
Qed.

End Framing.

(** C7. On AB, CR, CD before the end of the input [scanMessage] yields the
    token AB and consumes 3 bytes; on EF at the end of the input it yields
    [errTruncated] and no token; on nothing at the end of the input it
    yields neither a token nor an error. *)
Theorem scanMessage_examples :
  scanMessage ("AB" ++ String CR "CD") false = (3, Some "AB"%string, None)
  /\ scanMessage "EF" true = (2, None, Some errTruncated)
  /\ scanMessage EmptyString true = (0, None, None).
Proof. repeat split. Qed.

(** ** The text written to the port *)

Section WireText.

Lemma string_app_assoc (a b c : string) :
  ((a ++ b) ++ c = a ++ (b ++ c))%string.
Proof. induction a as [|x a IH]; simpl; [reflexivity | now rewrite IH]. Qed.

Lemma slen_app (a b : string) : slen (a ++ b) = slen a + slen b.
Proof.
  unfold slen. induction a as [|x a IH]; simpl String.length; [reflexivity|].
  rewrite !Nat2Z.inj_succ. simpl in IH. lia.
Qed.

Lemma allChars_app (p : ascii -> bool) (a b : string) :
  allChars p (a ++ b) = allChars p a && allChars p b.
Proof.
  induction a as [|x a IH]; simpl; [reflexivity|].
  now rewrite IH, andb_assoc.
Qed.

Lemma udigit_spec (n : Z) :
0 <= n < 16 ->
Hex.fromHexChar (Hex.digit Hex.udigits n) = Some n
/\ isUpperHex (Hex.digit Hex.udigits n) = true.
Proof.
intros Hn. rewrite <- (Z2Nat.id n) by lia.
assert (Hj : (Z.to_nat n < 16)%nat) by lia.
revert Hj. generalize (Z.to_nat n) as j. intros j Hj.
do 16 (destruct j as [|j]; [split; reflexivity|]). lia.
Qed.

Lemma byte_nibbles (b : Z) :
  is_byte b ->
  0 <= Z.shiftr b 4 < 16 /\ 0 <= Z.land b 15 < 16
  /\ Z.lor (Z.shiftl (Z.shiftr b 4) 4) (Z.land b 15) = b.
Proof.
  intros Hb. unfold is_byte in Hb.
  change 15 with (Z.ones 4).
  rewrite <- Z.ldiff_ones_r, Z.lor_ldiff_and by lia.
  rewrite Z.shiftr_div_pow2, Z.land_ones by lia.
  change (2 ^ 4) with 16.
  pose proof (Z.mod_pos_bound b 16 ltac:(lia)).
  pose proof (Z.div_mod b 16 ltac:(lia)).
  repeat split; try lia.
Qed.

Lemma hexBytes_app (t : string) (a b : list Z) :
  Hex.hexBytes t (a ++ b) = (Hex.hexBytes t a ++ Hex.hexBytes t b)%string.
Proof.
  induction a as [|x a IH]; simpl; [reflexivity|]. now rewrite IH.
Qed.

Lemma hexBytes_upper (bs : list Z) :
  Forall is_byte bs ->
  slen (Hex.hexBytes Hex.udigits bs) = 2 * len bs
  /\ allChars isUpperHex (Hex.hexBytes Hex.udigits bs) = true
  /\ Hex.DecodeString (Hex.hexBytes Hex.udigits bs) = (bs, None).
Proof.
  induction 1 as [|b bs Hb _ (IHl & IHc & IHd)].
  - repeat split.
  - destruct (byte_nibbles b Hb) as (Hh & Hl & Hj).
    destruct (udigit_spec _ Hh) as (Dh & Uh).
    destruct (udigit_spec _ Hl) as (Dl & Ul).
    cbn [Hex.hexBytes Hex.hex2 append]. split; [|split].
    + unfold slen in *. cbn [String.length]. unfold len in *.
      cbn [List.length]. lia.
    + cbn [allChars]. now rewrite Uh, Ul, IHc.
    + cbn [Hex.DecodeString]. now rewrite Dh, Dl, IHd, Hj.
Qed.

Lemma Checksum_byte (m : list Z) : is_byte (Checksum m).
Proof. unfold is_byte, Checksum, byte_wrap. apply Z.mod_pos_bound. lia. Qed.

End WireText.

(** For the message 08 10 B4 01 FF 22 64 the checksum written is AE. *)
Lemma txUPB_example_checksum :
  let m := [8; 16; 180; 1; 255; 34; 100] in
  Checksum m = 0xAE
  /\ Hex.fmt_02X_byte (Checksum m) = "AE"%string
  /\ Hex.fmt_02X_byte (Checksum m) <> "97"%string
  /\ txUPB_text m
     <> String (ascii_of_N 0x14) ("0810B401FF2264" ++ "97" ++ String CR EmptyString).
Proof. cbv zeta. repeat split; vm_compute; discriminate. Qed.

(** C6 (amended). For a message [m] of one byte or more, [txUPB] writes the
    byte 0x14, then two upper-case hexadecimal digits for every byte of [m]
    in order, then two for [Checksum m], then a carriage return.  For the
    message 08 10 B4 01 FF 22 64 the checksum so written is AE. *)
Theorem txUPB_wire_format (m : list Z) :
  m <> [] -> Forall is_byte m ->
  let digits := (Hex.fmt_02X_bytes m ++ Hex.fmt_02X_byte (Checksum m))%string in
  txUPB_text m = String (ascii_of_N 0x14) (digits ++ String CR EmptyString)
  /\ slen digits = 2 * (len m + 1)
  /\ allChars isUpperHex digits = true
  /\ Hex.DecodeString digits = (m ++ [Checksum m], None)
  /\ digits = Hex.hexBytes Hex.udigits (m ++ [Checksum m])
  /\ txUPB_text [8; 16; 180; 1; 255; 34; 100]
     = String (ascii_of_N 0x14) ("0810B401FF2264" ++ "AE" ++ String CR EmptyString).
Proof.
  intros Hne Hb digits.
  assert (E : digits = Hex.hexBytes Hex.udigits (m ++ [Checksum m])).
  { unfold digits, Hex.fmt_02X_bytes, Hex.fmt_02X_byte.
    destruct m as [|b m']; [contradiction|].
    rewrite hexBytes_app. simpl. reflexivity. }
  assert (Hall : Forall is_byte (m ++ [Checksum m])).
  { apply Forall_app. split; [assumption|]. constructor; [apply Checksum_byte|constructor]. }
  destruct (hexBytes_upper _ Hall) as (Hl & Hc & Hd).
  rewrite len_snoc in Hl.
  split; [|rewrite E; repeat split; assumption].
  unfold txUPB_text, digits. now rewrite string_app_assoc.
Qed.

Lemma txUPB_wire_format_witness :
  Hex.DecodeString (Hex.fmt_02X_bytes [8; 16] ++ Hex.fmt_02X_byte (Checksum [8; 16]))
  = ([8; 16] ++ [Checksum [8; 16]], None).
Proof.
  refine (proj1 (proj2 (proj2 (proj2 (txUPB_wire_format [8; 16] _ _))))).
  - discriminate.
  - repeat constructor; vm_compute; discriminate.
Defined.

(** ** Closing the connection *)

(** C8 (what the code does). After [Close], the channel send at the start
    of [Send] panics; the idle loop receives the nil pointer from the closed
    channel and panics on [rq.msg]; with a request pending the loop does
    not look at the channel at all, so that request is not resolved by
    [Close].  No error value for a closed connection exists. *)
Theorem Send_after_Close_panics (w : world) (r r0 : req) :
  Close {| closed := false |} = Some {| closed := true |}
  /\ Send_start {| closed := true |} r = SendPanics
  /\ serve_step w Idle recv_closed = Panic []
  /\ serve_step w (AwaitingResponse r0) recv_closed = Refused.
Proof. repeat split. Qed.

(** ** One request at a time *)

Section SingleRequest.

Lemma req_eqb_refl (r : req) : req_eqb r r = true.
Proof.
  unfold req_eqb. rewrite Nat.eqb_refl.
  now destruct (list_eq_dec Z.eq_dec (msg r) (msg r)).
Qed.

Lemma inflight_app (a b : list action) (cur : option req) :
  inflight cur (a ++ b)
  = match inflight cur a with
    | Some c => inflight c b
    | None => None
    end.
Proof.
  revert cur. induction a as [|x a IH]; intros cur; [reflexivity|].
  destruct x as [r|l|t|r e|m]; try destruct l; destruct cur as [c|];
    cbn [app inflight]; try apply IH; try reflexivity.
  - destruct (String.eqb t (txUPB_text (msg c))); [apply IH | reflexivity].
  - destruct (req_eqb r c); [apply IH | reflexivity].
Qed.

Lemma keeps_after (pre : list action) (rq : option req) (res : result) :
  neutral pre -> keeps_discipline rq res -> keeps_discipline rq (after pre res).
Proof.
  intros Hn. destruct res as [rq' acts|acts|]; simpl; trivial;
    rewrite inflight_app, Hn; trivial.
Qed.

Lemma neutral_lengthWarning (m : list Z) : neutral (lengthWarning m).
Proof. intros cur. unfold lengthWarning. destruct (_ =? _); now destruct cur. Qed.

Lemma keeps_respond (w : world) (rq : option req) (err : option error) :
  keeps_discipline rq (respond w rq err).
Proof.
  unfold respond. destruct rq as [r|]; simpl; [|reflexivity].
  destruct (parked w); simpl; [now rewrite req_eqb_refl | reflexivity].
Qed.

Lemma keeps_report (rq : option req) (payload : string) :
  keeps_discipline rq (report rq payload).
Proof.
  unfold report.
  destruct (Hex.DecodeString payload) as [m [e|]]; [now destruct rq|].
  destruct (len m <? 7); [now destruct rq|].
  unfold stripChecksum.
  destruct (negb (Checksum _ =? _)); [|destruct (negb (_ =? 0))]; simpl;
    rewrite ?inflight_app, neutral_lengthWarning; now destruct rq.
Qed.

Lemma keeps_step (w : world) (rq : option req) (ev : event) :
  keeps_discipline rq (serve_step w rq ev).
Proof.
  destruct ev as [s|[r|]].
  - unfold serve_step. apply keeps_after; [intros [c|]; reflexivity|].
    destruct s as [|p [|k rest]]; try (now destruct rq).
    repeat match goal with
           | |- context [if ?c then _ else _] => destruct c
           end;
      try apply keeps_respond; try apply keeps_report; try (now destruct rq).
    destruct rq as [r|]; [|reflexivity].
    destruct (nth_error (msg r) 1); [apply keeps_respond | reflexivity].
  - destruct rq as [r0|]; [exact I|].
    cbn [serve_step txUPB]. destruct (write_err w) as [e|].
    + cbn. rewrite String.eqb_refl.
      destruct (parked w); cbn; [now rewrite req_eqb_refl | reflexivity].
    + cbn. now rewrite String.eqb_refl.
  - now destruct rq.
Qed.

Lemma quiet_app (a b : list action) : quiet a -> quiet b -> quiet (a ++ b).
Proof.
  unfold quiet, dequeued, writes. intros [A1 A2] [B1 B2].
  now rewrite !flat_map_app, A1, A2, B1, B2.
Qed.

Lemma quiet_after (pre : list action) (res : result) :
  quiet pre -> quiet (acts_of res) -> quiet (acts_of (after pre res)).
Proof.
  destruct res; simpl; trivial. - apply quiet_app. - apply quiet_app.
Qed.

Lemma quiet_respond (w : world) (rq : option req) (err : option error) :
  quiet (acts_of (respond w rq err)).
Proof.
  unfold respond. destruct rq as [r|]; simpl; [|now split].
  destruct (parked w); now split.
Qed.

Lemma quiet_report (rq : option req) (payload : string) :
  quiet (acts_of (report rq payload)).
Proof.
  unfold report.
  destruct (Hex.DecodeString payload) as [m [e|]]; [now split|].
  destruct (len m <? 7); [now split|].
  assert (Hw : quiet (lengthWarning m))
    by (unfold lengthWarning; destruct (_ =? _); now split).
  unfold stripChecksum.
  destruct (negb (Checksum _ =? _)); [|destruct (negb (_ =? 0))]; simpl;
    try apply quiet_app; trivial; now split.
Qed.

Lemma quiet_frame (w : world) (rq : option req) (s : string) :
  quiet (acts_of (serve_step w rq (Frame s))).
Proof.
  unfold serve_step. apply quiet_after; [now split|].
  destruct s as [|p [|k rest]]; try (now split).
  repeat match goal with
         | |- context [if ?c then _ else _] => destruct c
         end;
    try apply quiet_respond; try apply quiet_report; try (now split).
  destruct rq as [r|]; [|now split].
  destruct (nth_error (msg r) 1); [apply quiet_respond | now split].
Qed.

Lemma step_transmits (w : world) (rq rq' : option req) (ev : event) (acts : list action) :
  serve_step w rq ev = Next rq' acts ->
  dequeued acts = submitted [(w, ev)]
  /\ writes acts = map (fun r => txUPB_text (msg r)) (submitted [(w, ev)]).
Proof.
  intros H. destruct ev as [s|[r|]].
  - pose proof (quiet_frame w rq s) as Q. rewrite H in Q. exact Q.
  - destruct rq as [r0|]; [discriminate|].
    cbn [serve_step txUPB] in H. destruct (write_err w) as [e|].
    + cbn in H. destruct (parked w); injection H as <- <-; now split.
    + cbn in H. injection H as <- <-. now split.
  - destruct rq; discriminate.
Qed.

Lemma serve_keeps (tr : list (world * event)) (rq : option req) :
  match serve rq tr with
  | Next rq' acts =>
      inflight rq acts = Some rq'
      /\ dequeued acts = submitted tr
      /\ writes acts = map (fun r => txUPB_text (msg r)) (submitted tr)
  | Panic acts => exists cur, inflight rq acts = Some cur
  | Refused => True
  end.
Proof.
  revert rq. induction tr as [|[w ev] tr IH]; intros rq; [now cbn|].
  cbn [serve].
  pose proof (keeps_step w rq ev) as K.
  destruct (serve_step w rq ev) as [rq1 acts1|acts1|] eqn:E; cbn in K.
  - destruct (step_transmits _ _ _ _ _ E) as [D W].
    specialize (IH rq1).
    destruct (serve rq1 tr) as [rq2 acts2|acts2|]; cbn [after].
    + destruct IH as (I1 & I2 & I3).
      rewrite inflight_app, K.
      change ((w, ev) :: tr) with ([(w, ev)] ++ tr).
      unfold dequeued, writes, submitted in *.
      rewrite !flat_map_app, map_app, D, W, I2, I3. auto.
    + destruct IH as [cur I1]. exists cur. now rewrite inflight_app, K.
    + exact I.
  - eauto.
  - exact I.
Qed.

End SingleRequest.

(** C9. Along every run of the loop from the idle state: the [wr] case
    cannot be taken while a request is pending and can be taken when none
    is; the requests are transmitted one by one in the order in which the
    loop received them, one write each; and the actions keep the discipline
    of [inflight]: a request is taken only when none is in flight, the port
    is written only with the message of the request in flight, and an
    outcome goes to the request in flight and ends it. *)
Theorem single_request_in_flight
    (tr : list (world * event)) (rq : option req) (acts : list action) :
  serve Idle tr = Next rq acts ->
  inflight Idle acts = Some rq
  /\ dequeued acts = submitted tr
  /\ writes acts = map (fun r => txUPB_text (msg r)) (submitted tr)
  /\ (forall w r0 r, serve_step w (AwaitingResponse r0) (Request r) = Refused)
  /\ (forall w r, serve_step w Idle (Request r) <> Refused).
Proof.
  intros H. pose proof (serve_keeps tr Idle) as K. rewrite H in K.
  destruct K as (K1 & K2 & K3). repeat split; trivial.
  intros w [r|]; cbn; [|discriminate].
  destruct (write_err w); cbn; discriminate.
Qed.

Lemma single_request_in_flight_witness :
  let r1 := {| resp := 1; msg := [8; 16; 180; 1; 255; 34; 100] |} in
  let r2 := {| resp := 2; msg := [7; 16; 180; 2; 255; 48] |} in
  let ok := {| write_err := None; parked := true |} in
  let bad := {| write_err := Some (errPort 5); parked := true |} in
  let tr := [(ok, Request (Some r1)); (ok, Frame "PA"); (ok, Frame "PK");
             (bad, Request (Some r2)); (ok, Frame "PU07000102FF22D5")] in
  inflight Idle (acts_of (serve Idle tr)) = Some Idle
  /\ dequeued (acts_of (serve Idle tr)) = [r1; r2].
Proof.
  intros r1 r2 ok bad tr.
  assert (E : serve Idle tr = Next Idle (acts_of (serve Idle tr))) by reflexivity.
  destruct (single_request_in_flight tr _ _ E) as (H1 & H2 & _).
  split; [exact H1 | exact H2].
Defined.

(** The discipline is not vacuous: taking a second request while one is in
    flight, answering another request, or answering twice breaks it. *)
Example inflight_rejects (r1 r2 : req) (e : option error) :
  inflight Idle [Dequeue r1; Dequeue r2] = None
  /\ inflight Idle [Deliver r1 e] = None
  /\ inflight Idle [Dequeue r1; PortWrite (txUPB_text (msg r1));
                    Deliver r1 e; Deliver r1 e] = None
  /\ inflight Idle [Dequeue {| resp := 1; msg := [] |};
                    Deliver {| resp := 2; msg := [] |} e] = None.
Proof.
  repeat split. cbn. now rewrite String.eqb_refl, req_eqb_refl.
Qed.


(** ** More on the checksum *)

Section ChecksumAlgebra.

Lemma neg_mod_inj (a b : Z) :
(- a) mod 256 = (- b) mod 256 <-> a mod 256 = b mod 256.
Proof.
pose proof (Z.div_mod a 256 ltac:(lia)).
pose proof (Z.div_mod b 256 ltac:(lia)).
pose proof (Z.div_mod (- a) 256 ltac:(lia)).
pose proof (Z.div_mod (- b) 256 ltac:(lia)).
pose proof (Z.mod_pos_bound a 256 ltac:(lia)).
pose proof (Z.mod_pos_bound b 256 ltac:(lia)).
pose proof (Z.mod_pos_bound (- a) 256 ltac:(lia)).
pose proof (Z.mod_pos_bound (- b) 256 ltac:(lia)).
split; intros E; lia.
Qed.

Lemma sumBytes_perm (a b : list Z) : Permutation a b -> sumBytes a = sumBytes b.
Proof. induction 1; simpl; lia. Qed.

End ChecksumAlgebra.

(** X1. A message followed by its checksum sums to zero modulo 256, and the
    checksum of the whole is zero. *)
Theorem Checksum_frame_sums_to_zero (m : list Z) :
  sumBytes (m ++ [Checksum m]) mod 256 = 0
  /\ Checksum (m ++ [Checksum m]) = 0.
Proof.
  assert (E : sumBytes (m ++ [Checksum m]) mod 256 = 0).
  { rewrite sumBytes_app, Checksum_sum. simpl. rewrite Z.add_0_r.
    rewrite Zplus_mod_idemp_r. replace (sumBytes m + - sumBytes m) with 0 by lia.
    reflexivity. }
  split; [exact E|].
  rewrite Checksum_sum.
  apply (proj2 (neg_mod_inj (sumBytes (m ++ [Checksum m])) 0)). exact E.
Qed.

(** X2. Two messages have the same checksum exactly when their byte sums
    agree modulo 256: the checksum sees nothing else of a message. *)
Theorem Checksum_eq_iff_sum (a b : list Z) :
  Checksum a = Checksum b <-> sumBytes a mod 256 = sumBytes b mod 256.
Proof. rewrite !Checksum_sum. apply neg_mod_inj. Qed.

(** X3. Reordering the bytes of a message is not detected: a permutation
    of [m] followed by the checksum of [m] still passes the test. *)
Theorem Checksum_blind_to_order (m m' : list Z) :
  Permutation m m' ->
  Checksum m' = Checksum m
  /\ isValidChecksum (m' ++ [Checksum m]) = true.
Proof.
  intros P.
  assert (E : Checksum m' = Checksum m)
    by (rewrite !Checksum_sum, (sumBytes_perm _ _ P); reflexivity).
  split; [exact E|].
  unfold isValidChecksum. rewrite stripChecksum_snoc. now apply Z.eqb_eq.
Qed.

Lemma Checksum_blind_to_order_witness :
  isValidChecksum ([16; 8; 180] ++ [Checksum [8; 16; 180]]) = true.
Proof.
  apply (proj2 (Checksum_blind_to_order [8; 16; 180] [16; 8; 180]
                  (perm_swap 16 8 [180]))).
Defined.

(** ** More on the splitting of frames *)

Section FramingContract.

Lemma IndexByte_lower (data : string) (c : ascii) : -1 <= IndexByte data c.
Proof.
induction data as [|d data IH]; cbn [IndexByte]; [lia|].
destruct (Ascii.eqb d c); [lia|].
destruct (Z.ltb_spec (IndexByte data c) 0); lia.
Qed.

Lemma IndexByte_absent (data : string) :
IndexByte data CR < 0 <-> noCR data = true.
Proof.
unfold noCR. induction data as [|d data IH]; cbn [IndexByte allChars].
- split; [reflexivity | lia].
- destruct (Ascii.eqb d CR); cbn [negb andb].
  + split; [lia | discriminate].
  + pose proof (IndexByte_lower data CR).
    destruct (Z.ltb_spec (IndexByte data CR) 0) as [Hlt|Hge].
    * split; [intros _; apply IH; exact Hlt | lia].
    * split; [lia | intros E; apply IH in E; lia].
Qed.

(** A carriage return found at index [i]: what precedes it has none. *)
Lemma IndexByte_found (data : string) :
0 <= IndexByte data CR ->
let tok := substring 0 (Z.to_nat (IndexByte data CR)) data in
slen tok = IndexByte data CR
/\ noCR tok = true
/\ exists rest, data = (tok ++ String CR rest)%string.
Proof.
induction data as [|d data IH]; cbn [IndexByte]; [lia|].
destruct (Ascii.eqb_spec d CR) as [->|Hd].
- intros _. cbn. repeat split. now exists data.
- destruct (Z.ltb_spec (IndexByte data CR) 0) as [Hlt|Hge]; [lia|].
  intros _. specialize (IH Hge). cbv zeta in IH.
  destruct IH as (Hl & Hn & rest & Hr).
  replace (Z.to_nat (IndexByte data CR + 1)) with (S (Z.to_nat (IndexByte data CR))) by lia.
  cbn [substring]. set (tok := substring 0 (Z.to_nat (IndexByte data CR)) data) in *.
  split; [|split].
  + unfold slen in *. cbn [String.length]. lia.
  + unfold noCR in *. cbn [allChars]. rewrite Hn.
    destruct (Ascii.eqb_spec d CR); [contradiction | reflexivity].
  + exists rest. cbn [append]. now rewrite <- Hr.
Qed.

End FramingContract.

(** X4. Whatever the input, [scanMessage] keeps the contract of a split
    function and says what it did: a token comes with no error, has no
    carriage return, is the start of the data up to the first carriage
    return, and is consumed with it; an error is [errTruncated], only at
    the end of the input, on data that is not empty and has no carriage
    return, all of which is consumed; otherwise nothing is consumed, the
    data has no carriage return, and either more input may come or none is
    left.  The advance is never negative nor beyond the data. *)
Theorem scanMessage_contract (data : string) (atEOF : bool) :
  match scanMessage data atEOF with
  | (adv, Some tok, err) =>
      err = None /\ adv = slen tok + 1 /\ noCR tok = true
      /\ (exists rest, data = (tok ++ String CR rest)%string)
      /\ 0 < adv <= slen data
  | (adv, None, Some e) =>
      e = errTruncated /\ atEOF = true /\ noCR data = true
      /\ adv = slen data /\ 0 < adv
  | (adv, None, None) =>
      adv = 0 /\ noCR data = true /\ (atEOF = false \/ data = EmptyString)
  end.
Proof.
  unfold scanMessage.
  destruct (Z.leb_spec 0 (IndexByte data CR)) as [Hi|Hi].
  - destruct (IndexByte_found data Hi) as (Hl & Hn & rest & Hr).
    repeat split; try assumption; try lia; [now exists rest|].
    pose proof (f_equal slen Hr) as L. rewrite slen_app in L.
    unfold slen in *. cbn [String.length] in L. lia.
  - apply IndexByte_absent in Hi.
    destruct atEOF; cbn [andb].
    + destruct (Z.ltb_spec 0 (slen data)) as [Hp|Hz].
      * repeat split; assumption.
      * repeat split; try assumption. right.
        destruct data; [reflexivity|]. unfold slen in Hz. cbn in Hz. lia.
    + repeat split; try assumption. now left.
Qed.

(** X5. A frame without a carriage return, followed by a carriage return,
    is returned whole and consumed with its carriage return, whatever
    comes after it and whether or not the input has ended. *)
Theorem scanMessage_cuts_at_first_CR (tok rest : string) (atEOF : bool) :
  noCR tok = true ->
  scanMessage (tok ++ String CR rest) atEOF = (slen tok + 1, Some tok, None).
Proof.
  intros H. apply scanMessage_frame. now apply IndexByte_absent.
Qed.

Lemma scanMessage_cuts_at_first_CR_witness :
  scanMessage ("PK" ++ String CR ("PU08" ++ String CR "P")) true
  = (slen "PK" + 1, Some "PK"%string, None).
Proof.
  apply (scanMessage_cuts_at_first_CR "PK" ("PU08" ++ String CR "P") true).
  reflexivity.
Defined.

(** ** Hex text *)

Section HexDecoding.

Lemma string_pair_ind (P : string -> Prop) :
P EmptyString ->
(forall c, P (String c EmptyString)) ->
(forall c d s, P s -> P (String c (String d s))) ->
forall s, P s.
Proof.
intros H0 H1 H2 s.
enough (H : P s /\ forall c, P (String c s)) by apply H.
induction s as [|d s [IHs IHc]]; split; auto.
Qed.

Lemma fromHexChar_range (c : ascii) (a : Z) :
Hex.fromHexChar c = Some a -> 0 <= a < 16.
Proof.
unfold Hex.fromHexChar.
repeat match goal with
       | |- context [?x <=? ?y] => destruct (Z.leb_spec x y)
       end; cbn [andb]; intros E; inversion E; lia.
Qed.

Lemma nibbles_join (a b : Z) :
0 <= a < 16 -> 0 <= b < 16 -> is_byte (Z.lor (Z.shiftl a 4) b).
Proof.
intros Ha Hb.
rewrite <- (Z2Nat.id a), <- (Z2Nat.id b) by lia.
assert (Hi : (Z.to_nat a < 16)%nat) by lia.
assert (Hj : (Z.to_nat b < 16)%nat) by lia.
revert Hi Hj. generalize (Z.to_nat a) as i, (Z.to_nat b) as j. intros i j Hi Hj.
do 16 (destruct i as [|i];
       [do 16 (destruct j as [|j]; [vm_compute; split; [discriminate | reflexivity]|]); lia|]).
lia.
Qed.

Lemma DecodeString_facts (s : string) :
(snd (Hex.DecodeString s) = None
 <-> Nat.even (String.length s) = true /\ allChars isHexDigit s = true)
/\ Forall is_byte (fst (Hex.DecodeString s))
/\ (snd (Hex.DecodeString s) = None -> 2 * len (fst (Hex.DecodeString s)) = slen s).
Proof.
induction s as [|c|c d s (IHok & IHb & IHl)] using string_pair_ind.
- cbn. repeat split; auto.
- cbn. unfold isHexDigit.
  destruct (Hex.fromHexChar c); cbn; repeat split; auto;
    try discriminate; intros [H1 H2]; (discriminate H1 || discriminate H2).
- cbn [Hex.DecodeString String.length Nat.even allChars]. unfold isHexDigit at 1 2.
  destruct (Hex.fromHexChar c) as [a|] eqn:Ea;
    [|cbn; repeat split; auto; try discriminate; intros [H1 H2]; (discriminate H1 || discriminate H2)].
  destruct (Hex.fromHexChar d) as [b|] eqn:Eb;
    [|cbn; repeat split; auto; try discriminate; intros [H1 H2]; (discriminate H1 || discriminate H2)].
  destruct (Hex.DecodeString s) as [bs e]. cbn [fst snd andb] in *.
  split; [exact IHok|]. split.
  + constructor; [|exact IHb].
    apply nibbles_join; eapply fromHexChar_range; eassumption.
  + intros E. specialize (IHl E). unfold len, slen in *.
    cbn [List.length String.length]. lia.
Qed.

End HexDecoding.

(** X6. [hex.DecodeString] reports no error exactly on the texts of even
    length made of hexadecimal digits (either case); what it returns is a
    list of bytes, and without an error there is one byte per two
    characters. *)
Theorem DecodeString_accepts_hex_pairs (s : string) :
  (snd (Hex.DecodeString s) = None
   <-> Nat.even (String.length s) = true /\ allChars isHexDigit s = true)
  /\ Forall is_byte (fst (Hex.DecodeString s))
  /\ (snd (Hex.DecodeString s) = None -> 2 * len (fst (Hex.DecodeString s)) = slen s).
Proof. apply DecodeString_facts. Qed.

Lemma DecodeString_accepts_hex_pairs_witness :
  2 * len (fst (Hex.DecodeString "08ffB4")) = slen "08ffB4".
Proof.
  apply (proj2 (proj2 (DecodeString_accepts_hex_pairs "08ffB4"))). reflexivity.
Defined.

(** ** From the port and back *)

Section RoundTrip.

Lemma digits_hexBytes (m : list Z) (ck : Z) :
m <> [] ->
(Hex.fmt_02X_bytes m ++ Hex.fmt_02X_byte ck)%string
= Hex.hexBytes Hex.udigits (m ++ [ck]).
Proof.
intros Hne. destruct m as [|b m]; [contradiction|].
unfold Hex.fmt_02X_bytes, Hex.fmt_02X_byte. rewrite hexBytes_app.
cbn [Hex.hexBytes]. unfold Hex.hex2. cbn [append]. reflexivity.
Qed.

Lemma allChars_impl (p q : ascii -> bool) (s : string) :
(forall c, p c = true -> q c = true) ->
allChars p s = true -> allChars q s = true.
Proof.
intros Hpq. induction s as [|c s IH]; cbn [allChars]; [reflexivity|].
intros H. apply andb_true_iff in H as [Hc Hs].
now rewrite (Hpq c Hc), (IH Hs).
Qed.

Lemma upperHex_not_CR (c : ascii) :
isUpperHex c = true -> negb (Ascii.eqb c CR) = true.
Proof.
destruct (Ascii.eqb_spec c CR) as [->|]; [discriminate | reflexivity].
Qed.

Lemma land31_mod (x : Z) : Z.land x 31 = x mod 32.
Proof. change 31 with (Z.ones 5). now rewrite Z.land_ones by lia. Qed.

End RoundTrip.

(** X7. What [txUPB] writes for a message comes back whole: if the digits
    between the op-code and the carriage return arrive as a report (PU, the
    digits, a carriage return), [scanMessage] cuts that frame out and
    [serve] hands exactly the message to [rx], provided the message has a
    header (6 bytes or more) and a retransmit count of zero.  Only the
    length warning depends on the first byte. *)
Theorem wire_text_comes_back
    (w : world) (rq : option req) (m : list Z) (rest : string) (atEOF : bool) :
  Forall is_byte m -> 6 <= len m -> Z.land (nth 1 m 0) 3 = 0 ->
  let digits := (Hex.fmt_02X_bytes m ++ Hex.fmt_02X_byte (Checksum m))%string in
  txUPB_text m = String (ascii_of_N 0x14) (digits ++ String CR EmptyString)
  /\ scanMessage (reportFrame digits ++ String CR rest) atEOF
     = (slen (reportFrame digits) + 1, Some (reportFrame digits), None)
  /\ serve_step w rq (Frame (reportFrame digits))
     = Next rq (Logf (LogRx (reportFrame digits))
                  :: lengthWarning (m ++ [Checksum m]) ++ [RX m]).
Proof.
  intros Hb Hlen Hbits digits.
  assert (Hne : m <> []) by (intros ->; unfold len in Hlen; simpl in Hlen; lia).
  assert (E : digits = Hex.hexBytes Hex.udigits (m ++ [Checksum m]))
    by (apply digits_hexBytes; exact Hne).
  assert (Hall : Forall is_byte (m ++ [Checksum m])).
  { apply Forall_app. split; [assumption|].
    constructor; [apply Checksum_byte | constructor]. }
  destruct (hexBytes_upper _ Hall) as (_ & Hc & Hd). rewrite <- E in Hc, Hd.
  split; [|split].
  - unfold txUPB_text, digits. now rewrite string_app_assoc.
  - apply scanMessage_frame. apply IndexByte_absent. unfold noCR, reportFrame.
    cbn [allChars]. cbn [negb andb Ascii.eqb]. 
    apply (allChars_impl isUpperHex); [apply upperHex_not_CR | exact Hc].
  - rewrite serve_step_report, (report_decoded rq digits m (Checksum m) Hd Hlen).
    rewrite Z.eqb_refl, (proj2 (Z.eqb_eq _ _) Hbits). reflexivity.
Qed.

Lemma wire_text_comes_back_witness :
  let w := {| write_err := None; parked := true |} in
  serve_step w Idle (Frame (reportFrame "0810B401FF2264AE"))
  = Next Idle [Logf (LogRx (reportFrame "0810B401FF2264AE"));
               RX [8; 16; 180; 1; 255; 34; 100]].
Proof.
  intros w.
  refine (proj2 (proj2 (wire_text_comes_back w Idle [8; 16; 180; 1; 255; 34; 100]
                          EmptyString true _ _ _))).
  - repeat constructor; vm_compute; discriminate.
  - vm_compute. discriminate.
  - reflexivity.
Defined.

(** X8. A message built by [Message] and followed by its checksum draws
    no length warning when it comes back as a report exactly when it has at
    most 24 arguments: the test reads the low five bits of LEN. *)
Theorem Message_length_field_agrees
    (c : Conn) (addr cmd ck : Z) (args : list Z) :
  lengthWarning (Message c addr cmd args ++ [ck]) = [] <-> len args <= 24.
Proof.
  unfold lengthWarning.
  change (nth 0 (Message c addr cmd args ++ [ck]) 0)
    with (byte_wrap (6 + len args + 1)).
  rewrite len_snoc. unfold Message. unfold len at 2. rewrite length_app.
  cbn [List.length]. fold (len args). rewrite land31_mod. unfold byte_wrap.
  assert (Hn : 0 <= len args) by (unfold len; lia).
  pose proof (Z.div_mod (6 + len args + 1) 256 ltac:(lia)).
  pose proof (Z.mod_pos_bound (6 + len args + 1) 256 ltac:(lia)).
  pose proof (Z.div_mod ((6 + len args + 1) mod 256) 32 ltac:(lia)).
  pose proof (Z.mod_pos_bound ((6 + len args + 1) mod 256) 32 ltac:(lia)).
  destruct (Z.eqb_spec (((6 + len args + 1) mod 256) mod 32)
                       (Z.of_nat (6 + List.length args)%nat + 1)) as [E|E].
  - split; [intros _|reflexivity]. unfold len in *. lia.
  - split; [discriminate|]. intros Hle. exfalso. apply E.
    unfold len in *. lia.
Qed.

(** ** When the loop panics, and when it only logs *)

Section LoopSafety.

Lemma is_panic_after (pre : list action) (res : result) :
is_panic (after pre res) = is_panic res.
Proof. now destruct res. Qed.

Lemma is_panic_respond (w : world) (rq : option req) (err : option error) :
is_panic (respond w rq err) = match rq with None => true | Some _ => false end.
Proof. unfold respond. now destruct rq. Qed.

Lemma is_panic_report (rq : option req) (payload : string) :
is_panic (report rq payload) = false.
Proof.
unfold report. destruct (Hex.DecodeString payload) as [m [e|]]; [reflexivity|].
destruct (len m <? 7); [reflexivity|]. unfold stripChecksum.
destruct (negb (Checksum _ =? _)); [reflexivity|].
now destruct (negb (_ =? 0)).
Qed.

Lemma nth_error_short (m : list Z) : nth_error m 1 = None <-> len m < 2.
Proof. rewrite nth_error_None. unfold len. lia. Qed.

(** The frames that need a pending request. *)
Lemma frame_panic_cases (w : world) (rq : option req) (p k : ascii) (rest : string) :
is_panic (serve_step w rq (Frame (String p (String k rest))))
= Ascii.eqb p "P"
  && (((Ascii.eqb k "B" || Ascii.eqb k "E" || Ascii.eqb k "K" || Ascii.eqb k "N")
       && match rq with None => true | Some _ => false end)
      || (Ascii.eqb k "N"
          && match rq with
             | Some r => match nth_error (msg r) 1 with None => true | Some _ => false end
             | None => false
             end)).
Proof.
unfold serve_step. rewrite is_panic_after.
destruct (Ascii.eqb_spec p "P") as [->|]; cbn [negb andb]; [|reflexivity].
destruct (Ascii.eqb_spec k "A") as [->|]; [now destruct rq|].
destruct (Ascii.eqb_spec k "B") as [->|]; [rewrite is_panic_respond; now destruct rq|].
destruct (Ascii.eqb_spec k "E") as [->|]; [rewrite is_panic_respond; now destruct rq|].
destruct (Ascii.eqb_spec k "K") as [->|]; [rewrite is_panic_respond; now destruct rq|].
destruct (Ascii.eqb_spec k "N") as [->|].
- destruct rq as [r|]; [|reflexivity].
  destruct (nth_error (msg r) 1); [now rewrite is_panic_respond | reflexivity].
- cbn [orb andb].
  destruct (Ascii.eqb k "U"); [now rewrite is_panic_report | reflexivity].
Qed.

End LoopSafety.

(** X9. A frame makes the loop panic in two situations and no other: it
    starts with PB, PE, PK or PN while no request is pending, or it starts
    with PN while the pending request's message has fewer than two bytes.
    Reports, PA and every other frame never do. *)
Theorem loop_panics_iff (w : world) (rq : option req) (s : string) :
  is_panic (serve_step w rq (Frame s)) = true
  <-> exists k rest,
        s = String "P" (String k rest)
        /\ ((rq = None /\ In k ["B"; "E"; "K"; "N"]%char)
            \/ (k = "N"%char /\ exists r, rq = Some r /\ len (msg r) < 2)).
Proof.
  split.
  - destruct s as [|p [|k rest]]; try discriminate.
    rewrite frame_panic_cases. intros H.
    apply andb_true_iff in H as [Hp H].
    apply Ascii.eqb_eq in Hp. subst p. exists k, rest. split; [reflexivity|].
    apply orb_true_iff in H as [H|H]; apply andb_true_iff in H as [Hk Hrq].
    + left. destruct rq; [discriminate|]. split; [reflexivity|].
      repeat (apply orb_true_iff in Hk as [Hk|Hk]);
        apply Ascii.eqb_eq in Hk; subst k; cbn; tauto.
    + right. apply Ascii.eqb_eq in Hk. split; [exact Hk|].
      destruct rq as [r|]; [|discriminate]. exists r. split; [reflexivity|].
      apply nth_error_short. now destruct (nth_error (msg r) 1).
  - intros (k & rest & -> & [[-> Hin] | [-> (r & -> & Hl)]]);
      rewrite frame_panic_cases.
    + destruct Hin as [<-|[<-|[<-|[<-|[]]]]]; reflexivity.
    + apply nth_error_short in Hl. now rewrite Hl.
Qed.

(** X10. A frame of fewer than two bytes (such as the empty string read
    from a closed [rd]), one that does not start with P, one that starts
    with PA, or one with an unknown second byte is logged and nothing else:
    the pending request stays as it is. *)
Theorem other_frames_only_logged (w : world) (rq : option req) (s : string) :
  (forall k rest, s = String "P" (String k rest) ->
     ~ In k ["B"; "E"; "K"; "N"; "U"]%char) ->
  serve_step w rq (Frame s) = Next rq [Logf (LogRx s)].
Proof.
  intros H. destruct s as [|p [|k rest]]; try reflexivity.
  unfold serve_step.
  destruct (Ascii.eqb_spec p "P") as [->|]; cbn [negb]; [|reflexivity].
  specialize (H k rest eq_refl). cbn [In] in H.
  repeat match goal with
         | |- context [Ascii.eqb k ?c] =>
             destruct (Ascii.eqb_spec k c);
               [try reflexivity; exfalso; intuition congruence|]
         end.
  reflexivity.
Qed.

Lemma other_frames_only_logged_witness :
  let w := {| write_err := None; parked := true |} in
  let r := {| resp := 3; msg := [7; 16; 180; 1; 255; 48] |} in
  serve_step w (AwaitingResponse r) (Frame EmptyString)
  = Next (AwaitingResponse r) [Logf (LogRx EmptyString)].
Proof.
  intros w r. apply (other_frames_only_logged w (AwaitingResponse r) EmptyString).
  intros k rest E. discriminate E.
Defined.

(** X11. A request whose message was built by [Message] (so every [Goto]
    and [ReportState]) asks for the acknowledge pulse: a frame that starts
    with PN ends it with [errMissingAck], and no frame at all makes the
    loop panic while it is pending. *)
Theorem built_message_is_safe
    (w : world) (c : Conn) (addr cmd : Z) (args : list Z) (ch : nat)
    (s rest : string) :
  let r := {| resp := ch; msg := Message c addr cmd args |} in
  serve_step w (AwaitingResponse r) (Frame (String "P" (String "N" rest)))
  = Next Idle [Logf (LogRx (String "P" (String "N" rest)));
               Logf (LogResponse (Some errMissingAck));
               if parked w then Deliver r (Some errMissingAck)
               else Logf LogFailedResponse]
  /\ is_panic (serve_step w (AwaitingResponse r) (Frame s)) = false.
Proof.
  intros r. split.
  - cbn. now destruct (parked w).
  - destruct s as [|p [|k rest']]; try reflexivity.
    rewrite frame_panic_cases. unfold AwaitingResponse, r. cbn [msg Message app nth_error].
    now rewrite !andb_false_r.
Qed.

(** ** What reaches [rx], and how requests end *)

Section Deliveries.

Lemma In_after (a : action) (pre : list action) (res : result) :
res <> Refused ->
In a (acts_of (after pre res)) <-> In a pre \/ In a (acts_of res).
Proof.
intros H. destruct res; cbn [after acts_of]; try apply in_app_iff. contradiction.
Qed.

Lemma respond_no_RX (w : world) (rq : option req) (err : option error) (m : list Z) :
~ In (RX m) (acts_of (respond w rq err)).
Proof.
unfold respond. destruct rq as [r|]; cbn; [destruct (parked w); cbn|];
  intuition discriminate.
Qed.

Lemma lengthWarning_no_RX (m0 m : list Z) : ~ In (RX m) (lengthWarning m0).
Proof.
unfold lengthWarning. destruct (_ =? _); cbn; intuition discriminate.
Qed.

Lemma report_RX (rq : option req) (payload : string) (m : list Z) :
In (RX m) (acts_of (report rq payload)) ->
Hex.DecodeString payload = (m ++ [Checksum m], None)
/\ 6 <= len m /\ Z.land (nth 1 m 0) 3 = 0
/\ delivered_reports (acts_of (report rq payload)) = [m].
Proof.
unfold report. destruct (Hex.DecodeString payload) as [m0 [e|]] eqn:Hdec;
  [cbn; intuition discriminate|].
destruct (Z.ltb_spec (len m0) 7) as [Hs|Hl]; [cbn; intuition discriminate|].
destruct (snoc_cases m0) as [->|(body & sum & ->)];
  [unfold len in Hl; simpl in Hl; lia|].
rewrite stripChecksum_snoc. rewrite len_snoc in Hl.
destruct (Z.eqb_spec (Checksum body) sum) as [Hsum|Hsum]; cbn [negb acts_of].
- destruct (Z.eqb_spec (Z.land (nth 1 body 0) 3) 0) as [Hz|Hz]; cbn [negb acts_of].
  + intros Hin. apply in_app_iff in Hin as [Hin|Hin];
      [now apply lengthWarning_no_RX in Hin|].
    destruct Hin as [E|[]]. injection E as <-. subst sum.
    rewrite delivered_reports_app, delivered_lengthWarning.
    repeat split; trivial; lia.
  + intros Hin. now apply lengthWarning_no_RX in Hin.
- intros Hin. apply in_app_iff in Hin as [Hin|Hin];
    [now apply lengthWarning_no_RX in Hin|].
  destruct Hin as [E|[]]. discriminate E.
Qed.

Lemma inflight_accounts (acts : list action) (cur cur' : option req) :
inflight cur acts = Some cur' ->
pending cur + len (dequeued acts) = len (ended acts) + pending cur'.
Proof.
revert cur. induction acts as [|a acts IH]; intros cur.
- cbn. intros E. injection E as <-. unfold len. cbn. lia.
- assert (Hd : forall x, dequeued (x :: acts) = dequeued [x] ++ dequeued acts)
    by (intros x; unfold dequeued; cbn; now rewrite app_nil_r).
  assert (He : forall x, ended (x :: acts) = ended [x] ++ ended acts)
    by (intros x; unfold ended; cbn; now rewrite app_nil_r).
  rewrite Hd, He. unfold len in *. rewrite !length_app.
  destruct a as [r|l|t|r e|m].
  + destruct cur as [c|]; cbn [inflight]; [discriminate|].
    intros E; specialize (IH _ E); clear Hd He;
      cbn [dequeued ended flat_map app Datatypes.length pending] in *; lia.
  + destruct l; destruct cur as [c|]; cbn [inflight]; try discriminate;
      intros E; specialize (IH _ E); clear Hd He;
      cbn [dequeued ended flat_map app Datatypes.length pending] in *; lia.
  + destruct cur as [c|]; cbn [inflight]; [|discriminate].
    destruct (String.eqb t (txUPB_text (msg c))); [|discriminate].
    intros E; specialize (IH _ E); clear Hd He;
      cbn [dequeued ended flat_map app Datatypes.length pending] in *; lia.
  + destruct cur as [c|]; cbn [inflight]; [|discriminate].
    destruct (req_eqb r c); [|discriminate].
    intros E; specialize (IH _ E); clear Hd He;
      cbn [dequeued ended flat_map app Datatypes.length pending] in *; lia.
  + destruct cur as [c|]; cbn [inflight];
      intros E; specialize (IH _ E); clear Hd He;
      cbn [dequeued ended flat_map app Datatypes.length pending] in *; lia.
Qed.

End Deliveries.

(** X12. Whatever the event and the state, a message is handed to [rx]
    only out of a report frame PU + payload whose payload is the hex text of
    that message followed by its checksum, with a header of 6 bytes or more
    and a retransmit count of zero; the message consists of bytes and is
    the only one handed over in that turn. *)
Theorem rx_only_valid_reports
    (w : world) (rq : option req) (ev : event) (m : list Z) :
  In (RX m) (acts_of (serve_step w rq ev)) ->
  exists payload,
    ev = Frame (reportFrame payload)
    /\ Hex.DecodeString payload = (m ++ [Checksum m], None)
    /\ 6 <= len m /\ Z.land (nth 1 m 0) 3 = 0
    /\ Forall is_byte m
    /\ delivered_reports (acts_of (serve_step w rq ev)) = [m].
Proof.
  destruct ev as [s|[r|]].
  - destruct s as [|p [|k rest]]; try (cbn; intuition discriminate).
    unfold serve_step.
    destruct (Ascii.eqb_spec p "P") as [->|]; cbn [negb];
      [|cbn; intuition discriminate].
    destruct (Ascii.eqb k "A"); [cbn; intuition discriminate|].
    assert (R : forall err, In (RX m)
                  (acts_of (after [Logf (LogRx (String "P" (String k rest)))]
                                  (respond w rq err))) -> False).
    { intros err Hin. apply In_after in Hin; [|unfold respond; now destruct rq].
      destruct Hin as [[E|[]]|Hin]; [discriminate E|].
      now apply respond_no_RX in Hin. }
    destruct (Ascii.eqb k "B"); [intros Hin; now apply R in Hin|].
    destruct (Ascii.eqb k "E"); [intros Hin; now apply R in Hin|].
    destruct (Ascii.eqb k "K"); [intros Hin; now apply R in Hin|].
    destruct (Ascii.eqb k "N").
    { destruct rq as [r|]; [|cbn; intuition discriminate].
      destruct (nth_error (msg r) 1); [intros Hin; now apply R in Hin|].
      cbn; intuition discriminate. }
    destruct (Ascii.eqb_spec k "U") as [->|]; [|cbn; intuition discriminate].
    intros Hin.
    assert (Hnr : report rq rest <> Refused).
    { pose proof (is_panic_report rq rest).
      unfold report. destruct (Hex.DecodeString rest) as [m0 [e|]]; [discriminate|].
      destruct (len m0 <? 7); [discriminate|]. unfold stripChecksum.
      destruct (negb (Checksum _ =? _)); [discriminate|].
      destruct (negb (_ =? 0)); discriminate. }
    apply In_after in Hin; [|exact Hnr].
    destruct Hin as [[E|[]]|Hin]; [discriminate E|].
    destruct (report_RX _ _ _ Hin) as (Hd & Hl & Hz & Hone).
    exists rest. repeat split; trivial.
    + pose proof (proj1 (proj2 (DecodeString_facts rest))) as Hb.
      rewrite Hd in Hb. cbn [fst] in Hb. now apply Forall_app in Hb as [Hb _].
    + destruct (report rq rest); cbn [after acts_of] in *;
        [| |contradiction]; now rewrite delivered_reports_app, Hone.
  - destruct rq as [r0|]; [cbn; intuition discriminate|].
    cbn [serve_step txUPB]. destruct (write_err w); cbn;
      [destruct (parked w); cbn|]; intuition discriminate.
  - destruct rq; cbn; intuition discriminate.
Qed.

Lemma rx_only_valid_reports_witness :
  let w := {| write_err := None; parked := true |} in
  exists payload,
    Frame (reportFrame "07000102ff22d5") = Frame (reportFrame payload)
    /\ Hex.DecodeString payload
       = ([7; 0; 1; 2; 255; 34] ++ [Checksum [7; 0; 1; 2; 255; 34]], None)
    /\ 6 <= len [7; 0; 1; 2; 255; 34]
    /\ Z.land (nth 1 [7; 0; 1; 2; 255; 34] 0) 3 = 0
    /\ Forall is_byte [7; 0; 1; 2; 255; 34]
    /\ delivered_reports
         (acts_of (serve_step w Idle (Frame (reportFrame "07000102ff22d5"))))
       = [[7; 0; 1; 2; 255; 34]].
Proof.
  intros w.
  apply (rx_only_valid_reports w Idle (Frame (reportFrame "07000102ff22d5"))
           [7; 0; 1; 2; 255; 34]).
  cbn. right. left. reflexivity.
Defined.

(** X13. Along every run of the loop from the idle state, every request
    taken has been ended by [respond] exactly once (its outcome handed over,
    or dropped because nobody was parked), except the one still pending;
    and the port has been written once per request taken. *)
Theorem requests_end_once
    (tr : list (world * event)) (rq : option req) (acts : list action) :
  serve Idle tr = Next rq acts ->
  len (submitted tr) = len (ended acts) + pending rq
  /\ len (writes acts) = len (submitted tr).
Proof.
  intros H. pose proof (serve_keeps tr Idle) as K. rewrite H in K.
  destruct K as (K1 & K2 & K3).
  apply inflight_accounts in K1. rewrite K2 in K1. cbn [pending Idle] in K1.
  split; [lia|]. rewrite K3. unfold len. now rewrite length_map.
Qed.

Lemma requests_end_once_witness :
  let r1 := {| resp := 1; msg := [8; 16; 180; 1; 255; 34; 100] |} in
  let r2 := {| resp := 2; msg := [7; 16; 180; 2; 255; 48] |} in
  let ok := {| write_err := None; parked := true |} in
  let gone := {| write_err := None; parked := false |} in
  let tr := [(ok, Request (Some r1)); (gone, Frame "PB");
             (ok, Request (Some r2)); (ok, Frame "PA")] in
  len (submitted tr) = len (ended (acts_of (serve Idle tr))) + pending (Some r2).
Proof.
  intros r1 r2 ok gone tr.
  assert (E : serve Idle tr = Next (Some r2) (acts_of (serve Idle tr))) by reflexivity.
  exact (proj1 (requests_end_once tr _ _ E)).
Defined.

(** ** The callbacks of package main *)

Section Callbacks.

Import Main.

Lemma int_wrap_small (w x : Z) :
w = 32 \/ w = 64 -> - 2147483648 <= x < 2147483648 -> int_wrap w x = x.
Proof.
intros [-> | ->] Hx; unfold int_wrap.
- change (2 ^ (32 - 1)) with 2147483648. change (2 ^ 32) with 4294967296.
  rewrite Z.mod_small; lia.
- change (2 ^ (64 - 1)) with 9223372036854775808.
  change (2 ^ 64) with 18446744073709551616.
  rewrite Z.mod_small; lia.
Qed.

Lemma hueLevel_plain (w val : Z) :
w = 32 \/ w = 64 -> 0 <= val <= 255 ->
hueLevel w val = (val * 100 + 128) / 256.
Proof.
intros Hw Hv. unfold hueLevel.
rewrite (int_wrap_small w (val * 100)) by (trivial; lia).
rewrite (int_wrap_small w (val * 100 + 128)) by (trivial; lia).
rewrite Z.quot_div_nonneg by lia.
unfold byte_wrap. apply Z.mod_small.
pose proof (Z.div_mod (val * 100 + 128) 256 ltac:(lia)).
pose proof (Z.mod_pos_bound (val * 100 + 128) 256 ltac:(lia)).
lia.
Qed.

End Callbacks.

(** X14. Whatever report [rxUPB] answers, the answer is a message that
    [Message] would build for destination 0x0B on the network of the
    connection, without arguments: the report-state command after the
    sleep, or command 0x20 or 0x21 (by the seventh byte of the report) at
    once.  Such an answer draws no length warning when it is echoed. *)
Theorem rxUPB_answers_are_built (m reply : list Z) (slept : bool) :
  Main.rxUPB m = Main.SendMsg slept reply ->
  (exists cmd, reply = Message Main.conn 11 cmd []
     /\ ((slept = true /\ cmd = 48 /\ reply = ReportState Main.conn 11)
         \/ (slept = false /\ exists b, nth_error m 6 = Some b
             /\ cmd = if b =? 0 then 32 else 33)))
  /\ lengthWarning (reply ++ [Checksum reply]) = [].
Proof.
  unfold Main.rxUPB.
  destruct (Main.linkCase m) as [[|]|]; try discriminate.
  - intros E. injection E as <- <-. split; [|reflexivity].
    exists 48. split; [reflexivity|]. left. repeat split.
  - destruct (Main.stateCase m) as [[|]|]; try discriminate.
    destruct (nth_error m 6) as [b|]; try discriminate.
    intros E. injection E as <- <-. split.
    + exists (if b =? 0 then 32 else 33). split; [reflexivity|].
      right. split; [reflexivity|]. now exists b.
    + now destruct (b =? 0).
Qed.

Lemma rxUPB_answers_are_built_witness :
  lengthWarning ([7; 16; 180; 11; 255; 33] ++ [Checksum [7; 16; 180; 11; 255; 33]]) = [].
Proof.
  apply (proj2 (rxUPB_answers_are_built [8; 0; 180; 255; 11; 134; 1]
                  [7; 16; 180; 11; 255; 33] false eq_refl)).
Defined.

(** X15. On a report as [serve] hands it over (6 bytes or more), [rxUPB]
    runs out of range in exactly one situation: the report has just 6
    bytes and is a state report of device 0x0B to the host (link bit clear,
    network of the connection, destination 0xFF, source 0x0B, command
    0x86), whose seventh byte it then reads. *)
Theorem rxUPB_panics_iff (m : list Z) :
  6 <= len m ->
  (Main.rxUPB m = Main.IndexPanic
   <-> len m = 6 /\ Z.land (nth 0 m 0) 128 = 0 /\ nth 2 m 0 = Main.netID
       /\ nth 3 m 0 = 255 /\ nth 4 m 0 = 11 /\ nth 5 m 0 = 134).
Proof.
  intros Hlen.
  destruct m as [|a0 [|a1 [|a2 [|a3 [|a4 [|a5 tl]]]]]];
    try (unfold len in Hlen; cbn in Hlen; lia).
  unfold Main.rxUPB, Main.linkCase, Main.stateCase, Main.at_index.
  cbn [nth_error option_map nth].
  assert (Ht : len (a0 :: a1 :: a2 :: a3 :: a4 :: a5 :: tl) = 6 <-> tl = []).
  { unfold len. cbn [List.length]. destruct tl; cbn [List.length]; split;
      intros; try discriminate; try reflexivity; lia. }
  rewrite Ht. clear Ht Hlen.
  destruct (Z.eqb_spec (Z.land a0 128) 0) as [H0|H0];
    destruct (Z.eqb_spec a2 Main.netID) as [H2|H2];
    destruct (Z.eqb_spec a3 11) as [H3|H3];
    destruct (Z.eqb_spec a3 255) as [H3'|H3'];
    destruct (Z.eqb_spec a4 11) as [H4|H4];
    destruct (Z.eqb_spec a5 32) as [H5|H5];
    destruct (Z.eqb_spec a5 134) as [H5'|H5'];
    cbn [negb Main.and_then]; try lia;
    try (split; [discriminate | intros (? & ? & ? & ? & ? & ?); congruence]).
  all: destruct tl as [|b tl]; cbn [nth_error];
    (split; [try discriminate; intros; repeat split; trivial
            | try reflexivity; intros [E _]; discriminate E]).
Qed.

Lemma rxUPB_panics_iff_witness :
  Main.rxUPB [6; 0; 180; 255; 11; 134] = Main.IndexPanic.
Proof.
  apply (proj2 (rxUPB_panics_iff [6; 0; 180; 255; 11; 134] ltac:(vm_compute; discriminate))).
  repeat split.
Defined.

(** X16. A state report of six bytes does reach [rxUPB]: for every first
    byte with the link bit clear and every control byte with a retransmit
    count of zero, [serve] hands the report 0x0B sends to the host with
    command 0x86 and no argument to [rx], and [rxUPB] runs out of range on
    it. *)
Theorem short_state_report_reaches_rxUPB
    (w : world) (rq : option req) (a ctl : Z) :
  is_byte a -> is_byte ctl -> Z.land a 128 = 0 -> Z.land ctl 3 = 0 ->
  let m := [a; ctl; Main.netID; 255; 11; 134] in
  let frame := reportFrame (Hex.hexBytes Hex.udigits (m ++ [Checksum m])) in
  delivered_reports (acts_of (serve_step w rq (Frame frame))) = [m]
  /\ Main.rxUPB m = Main.IndexPanic.
Proof.
  intros Ha Hc Hla Hlc m frame. split.
  - assert (Hall : Forall is_byte (m ++ [Checksum m])).
    { apply Forall_app. split.
      - unfold m.
        repeat (constructor;
                [first [assumption | unfold is_byte, Main.netID; lia]|]).
        constructor.
      - constructor; [apply Checksum_byte | constructor]. }
    destruct (hexBytes_upper _ Hall) as (_ & _ & Hd).
    unfold frame. rewrite serve_step_report.
    rewrite (report_decoded rq _ m (Checksum m) Hd) by (vm_compute; discriminate).
    rewrite Z.eqb_refl. cbn [negb]. change (nth 1 m 0) with ctl.
    rewrite (proj2 (Z.eqb_eq _ _) Hlc). cbn [negb after acts_of app].
    change (Logf (LogRx ?s) :: ?l) with ([Logf (LogRx s)] ++ l).
    rewrite !delivered_reports_app, delivered_lengthWarning. reflexivity.
  - unfold m, Main.rxUPB, Main.linkCase, Main.stateCase, Main.at_index.
    cbn [nth_error option_map]. rewrite (proj2 (Z.eqb_eq _ _) Hla). reflexivity.
Qed.

Lemma short_state_report_reaches_rxUPB_witness :
  let w := {| write_err := None; parked := true |} in
  let m := [6; 0; 180; 255; 11; 134] in
  delivered_reports (acts_of (serve_step w Idle (Frame (reportFrame "0600B4FF0B86B6")))) = [m]
  /\ Main.rxUPB m = Main.IndexPanic.
Proof.
  intros w m.
  apply (short_state_report_reaches_rxUPB w Idle 6 0);
    try reflexivity; vm_compute; split; discriminate || reflexivity.
Defined.

(** X17. For a brightness from 0 to 255 the huejack callback sends the
    level (val * 100 + 128) / 256: a value from 0 to 100, within half a
    step of val * 100 / 256, 0 for 0 and 100 for 255, and never smaller for
    a larger brightness. *)
Theorem hueLevel_scales (w val val' : Z) :
  w = 32 \/ w = 64 -> 0 <= val <= val' -> val' <= 255 ->
  Main.hueLevel w val = (val * 100 + 128) / 256
  /\ 0 <= Main.hueLevel w val <= 100
  /\ - 128 < 256 * Main.hueLevel w val - 100 * val <= 128
  /\ Main.hueLevel w val <= Main.hueLevel w val'
  /\ Main.hueLevel w 0 = 0 /\ Main.hueLevel w 255 = 100.
Proof.
  intros Hw Hv Hv'.
  rewrite !(hueLevel_plain w) by (trivial; lia).
  pose proof (Z.div_mod (val * 100 + 128) 256 ltac:(lia)).
  pose proof (Z.mod_pos_bound (val * 100 + 128) 256 ltac:(lia)).
  pose proof (Z.div_mod (val' * 100 + 128) 256 ltac:(lia)).
  pose proof (Z.mod_pos_bound (val' * 100 + 128) 256 ltac:(lia)).
  repeat split; try lia; try reflexivity.
Qed.

Lemma hueLevel_scales_witness :
  Main.hueLevel 64 128 = (128 * 100 + 128) / 256.
Proof.
  apply (proj1 (hueLevel_scales 64 128 200 (or_intror eq_refl)
                  ltac:(lia) ltac:(lia))).
Defined.

(** X18. The huejack callback runs out of range exactly for a key that is
    not 0, 1 or 2; otherwise it sends the 7-byte [Goto] message to device
    key + 1 with the scaled level. *)
Theorem hueHandler_devices (w key val : Z) :
  (Main.hueHandler w key val = None <-> key < 0 \/ 3 <= key)
  /\ (0 <= key < 3 ->
      Main.hueHandler w key val
      = Some [8; 16; Main.netID; key + 1; 255; 34; Main.hueLevel w val]).
Proof.
  unfold Main.hueHandler.
  change (len Main.Devices) with 3.
  destruct (Z.ltb_spec key 0) as [Hn|Hn]; cbn [orb].
  - split; [split; [lia | reflexivity] | lia].
  - destruct (Z.leb_spec 3 key) as [Hh|Hh].
    + split; [split; [lia | reflexivity] | lia].
    + assert (Hk : key = 0 \/ key = 1 \/ key = 2) by lia.
      destruct Hk as [-> | [-> | ->]]; cbn; (split; [split; [discriminate | lia] | reflexivity]).
Qed.

Lemma hueHandler_devices_witness :
  Main.hueHandler 64 1 255
  = Some [8; 16; Main.netID; 1 + 1; 255; 34; Main.hueLevel 64 255].
Proof.
  apply (proj2 (hueHandler_devices 64 1 255)). lia.
Defined.

(** ** The hex text of the log *)

Section HexEncoding.

Lemma ldigit_spec (n : Z) :
0 <= n < 16 -> Hex.fromHexChar (Hex.digit Hex.ldigits n) = Some n.
Proof.
intros Hn. rewrite <- (Z2Nat.id n) by lia.
assert (Hj : (Z.to_nat n < 16)%nat) by lia.
revert Hj. generalize (Z.to_nat n) as j. intros j Hj.
do 16 (destruct j as [|j]; [reflexivity|]). lia.
Qed.

Lemma hexBytes_decode (t : string) (bs : list Z) :
(forall n, 0 <= n < 16 -> Hex.fromHexChar (Hex.digit t n) = Some n) ->
Forall is_byte bs ->
Hex.DecodeString (Hex.hexBytes t bs) = (bs, None).
Proof.
intros Ht. induction 1 as [|b bs Hb _ IH]; [reflexivity|].
destruct (byte_nibbles b Hb) as (Hh & Hl & Hj).
cbn [Hex.hexBytes Hex.hex2 append Hex.DecodeString].
now rewrite (Ht _ Hh), (Ht _ Hl), IH, Hj.
Qed.

End HexEncoding.

(** X19. The hex text that [txUPB] logs decodes back to the message, and
    so do the digits it writes to the port before the checksum: the log
    shows the bytes that are sent.  Taking a request logs and writes just
    these. *)
Theorem tx_log_shows_what_is_sent (w : world) (r : req) :
  Forall is_byte (msg r) -> msg r <> [] ->
  Hex.DecodeString (Hex.EncodeToString (msg r)) = (msg r, None)
  /\ Hex.DecodeString (Hex.fmt_02X_bytes (msg r)) = (msg r, None)
  /\ exists tail rq',
       serve_step w Idle (Request (Some r))
       = Next rq' (Dequeue r :: Logf (LogTx (Hex.EncodeToString (msg r)))
                     :: PortWrite (txUPB_text (msg r)) :: tail).
Proof.
  intros Hb Hne. split; [|split].
  - apply hexBytes_decode; [apply ldigit_spec | exact Hb].
  - unfold Hex.fmt_02X_bytes. destruct (msg r) as [|b m] eqn:E; [contradiction|].
    apply hexBytes_decode; [|exact Hb]. intros n Hn. now apply udigit_spec.
  - cbn [serve_step txUPB Idle]. destruct (write_err w) as [e|]; cbn.
    + destruct (parked w); eauto.
    + eauto.
Qed.

Lemma tx_log_shows_what_is_sent_witness :
  Hex.DecodeString (Hex.EncodeToString [8; 16; 180; 1; 255; 34; 100])
  = ([8; 16; 180; 1; 255; 34; 100], None).
Proof.
  refine (proj1 (tx_log_shows_what_is_sent
                   {| write_err := None; parked := true |}
                   {| resp := 0; msg := [8; 16; 180; 1; 255; 34; 100] |} _ _)).
  - repeat (constructor; [vm_compute; split; [discriminate | reflexivity]|]). constructor.
  - discriminate.
Defined.

Lemma Checksum_eq_iff_sum_witness : Checksum [3; 4; 250] = Checksum [1].
Proof.
  apply (proj2 (Checksum_eq_iff_sum [3; 4; 250] [1])). reflexivity.
Defined.

Lemma Message_length_field_agrees_witness :
  lengthWarning (Message {| net := 180 |} 1 34 [100] ++ [174]) = [].
Proof.
  apply (proj2 (Message_length_field_agrees {| net := 180 |} 1 34 174 [100])).
  vm_compute. discriminate.
Defined.

Lemma loop_panics_iff_witness :
  is_panic (serve_step {| write_err := None; parked := true |} Idle (Frame "PK")) = true.
Proof.
  apply (proj2 (loop_panics_iff {| write_err := None; parked := true |} Idle "PK")).
  exists "K"%char, EmptyString. split; [reflexivity|].
  left. split; [reflexivity|]. cbn. auto.
Defined.
